(** * react-router: path matching, route resolution and the Router life cycle

    A shallow embedding of
    - [packages/react-router/modules/matchPath.js]  ([compilePath], [matchPath]),
    - [packages/react-router/modules/Router.js]     (the [Router] component),
    - [packages/react-router/modules/Switch.js]     ([Switch.render]),
    - [packages/react-router/modules/Route.js]      ([Route.render]).

    The module-level variables [cache] and [cacheCount] of matchPath.js are
    threaded as an explicit state, together with a trace of the calls made
    (ghost state, used to say that something was or was not called).  A
    call returns a value or raises, and leaves a module state in both
    cases.

    The cache objects and the [params] object are plain objects: a
    property read on them sees the names inherited from [Object.prototype],
    and an assignment to [__proto__] goes to the inherited accessor.  Both
    are part of the model ([inherited], [get], [assign]).

    The [path-to-regexp] package is an external collaborator: it is an
    interface here ([PathToRegexp]), and the general theorems hold for every
    implementation of it.  [SegmentLib] is one executable implementation, on
    which concrete calls are run.

    What is left out: the exception the package raises on a malformed
    pattern (the compiler is a total function here); the warnings of the
    development build other than those of [Route.componentDidMount]; and the
    scheduling of [setState], whose effect is taken at once. *)

From Stdlib Require Import Ascii String.
From stdpp Require Import gmap strings list fin_maps pretty.

Set Default Proof Using "Type".

(** ** JavaScript values seen by the matcher *)

(** A candidate pattern: an element of [[].concat(path)].  Route tables hold
    strings; [undefined] and [null] are the values for which the guard
    [!path && path !== ""] of the reducer exists. *)
Inductive JsPath :=
  | PStr (s : string)
  | PUndefined
  | PNull.

(** JavaScript truthiness of a candidate: the empty string, [undefined] and
    [null] are falsy. *)
Definition truthy (p : JsPath) : bool :=
  match p with
  | PStr s => negb (String.eqb s "")
  | PUndefined | PNull => false
  end.

(** [path !== ""] *)
Definition not_empty_string (p : JsPath) : bool :=
  match p with
  | PStr s => negb (String.eqb s "")
  | PUndefined | PNull => true
  end.

(** The [path] (or [from]) property: one value, or an array of values.  An
    absent property is [PathOne PUndefined]. *)
Inductive PathProp :=
  | PathOne (p : JsPath)
  | PathArray (ps : list JsPath).

(** An array is an object, hence truthy, also when it is empty. *)
Definition truthy_prop (p : PathProp) : bool :=
  match p with
  | PathOne p => truthy p
  | PathArray _ => true
  end.

(** [a || b] on properties *)
Definition js_or (a b : PathProp) : PathProp :=
  if truthy_prop a then a else b.

(** [[].concat(path)] *)
Definition concat_path (path : PathProp) : list JsPath :=
  match path with
  | PathOne p => [p]
  | PathArray ps => ps
  end.

(** [Array.prototype.reduce] with the index passed to the callback, for a
    callback that has no effect and does not raise. *)
Fixpoint reduce_from {A B : Type} (f : B → A → nat → B) (index : nat)
    (l : list A) (memo : B) : B :=
  match l with
  | [] => memo
  | x :: l' => reduce_from f (S index) l' (f memo x index)
  end.

Definition reduce {A B : Type} (f : B → A → nat → B) (l : list A) (init : B) : B :=
  reduce_from f 0 l init.

(** A call returns a value or raises an exception. *)
Inductive Result (A : Type) :=
  | Throw (message : string)
  | Return (value : A).
Arguments Throw {A} message.
Arguments Return {A} value.

(** The exception of a property read on [undefined]. *)
Definition TypeError : string := "TypeError".

(** ** What a plain object inherits *)

(** The names an object created by [{}] inherits from [Object.prototype].
    Each of them holds a function, but for [__proto__], an accessor whose
    getter gives [Object.prototype] itself.  All these values are truthy,
    and none of them has a property [regexp]. *)
Definition inherited_names : list string :=
  ["constructor"; "hasOwnProperty"; "isPrototypeOf"; "propertyIsEnumerable";
   "toLocaleString"; "toString"; "valueOf"; "__proto__";
   "__defineGetter__"; "__defineSetter__";
   "__lookupGetter__"; "__lookupSetter__"]%string.

Definition inherited (name : string) : bool :=
  bool_decide (name ∈ inherited_names).

(** ** The interface of path-to-regexp *)

(** The options object [{ end, strict, sensitive }] handed to the compiler. *)
Record CompileOptions := {
  end_ : bool;
  strict : bool;
  sensitive : bool
}.

(** An entry of the [keys] array; only [name] is read by the router. *)
Record Key := { name : string }.

(** What [regexp.exec(pathname)] returns: [null], or the array
    [[url, ...values]] of the full match and the capture groups.  A group
    that took no part in the match is [undefined] ([None]). *)
Definition ExecResult : Type := option (string * list (option string)).

(** A regular expression is used through [exec] only.  The expressions
    built by path-to-regexp carry no [g] or [y] flag, so [exec] keeps no
    [lastIndex] between calls: it is a function of the input. *)
Record RegExp := { exec : string → ExecResult }.

(** [pathToRegexp(path, keys, options)]: the expression returned and the
    [keys] array it fills. *)
Class PathToRegexp := pathToRegexp : string → CompileOptions → RegExp * list Key.

(** ** Results and options of [matchPath] *)

(** The object returned by a successful [matchPath].  [params] holds the
    own properties of the [params] object; a property holds a captured
    string or [undefined] ([None]). *)
Record MatchResult := {
  path : string;
  url : string;
  isExact : bool;
  params : gmap string (option string)
}.

(** The options object [{ path, exact, strict, sensitive }]; an absent
    flag is [None] and takes its default in the destructuring. *)
Module Options.
Record t := {
  path : PathProp;
  exact : option bool;
  strict : option bool;
  sensitive : option bool
}.
End Options.

(** The second argument of [matchPath]: a string, an array or an options
    object. *)
Inductive MatchArg :=
  | ArgString (s : string)
  | ArgArray (ps : list JsPath)
  | ArgObject (options : Options.t).

(** [values[index]]: [undefined] out of range. *)
Definition at_index (values : list (option string)) (index : nat) : option string :=
  mjoin (values !! index).

(** ** The pattern cache *)

(** [{ regexp, keys }], the object built by [compilePath].  [oid] is the
    identity of that object (its allocation number): two objects built by
    two calls differ in it even when their fields agree. *)
Record Compiled := {
  regexp : RegExp;
  keys : list Key;
  oid : nat
}.

(** What a property read [pathCache[path]] finds: an object stored by
    [compilePath], or the member of [Object.prototype] of that name. *)
Inductive Fetched :=
  | Matcher (result : Compiled)
  | Member (name : string).

(** [pathCache[path]]: the own property when there is one, the inherited
    member otherwise, and [undefined] ([None]) when there is neither. *)
Definition get (pathCache : gmap string Compiled) (path : string) : option Fetched :=
  match pathCache !! path with
  | Some result => Some (Matcher result)
  | None => if inherited path then Some (Member path) else None
  end.

(** Calls observed while the module runs (ghost state, newest first). *)
Inductive Event :=
  | EvMatchPath (pathname : string) (paths : list JsPath)
  | EvCompilePath (path : string) (options : CompileOptions)
  | EvPathToRegexp (path : string) (options : CompileOptions).

(** The module state of matchPath.js; the maps hold the own properties of
    the cache objects. *)
Record CacheState := {
  cache : gmap string (gmap string Compiled);
  cacheCount : Z;
  trace : list Event
}.

Definition cacheLimit : Z := 10000.

(** The state when the module is loaded. *)
Definition initial : CacheState :=
  {| cache := ∅; cacheCount := 0; trace := [] |}.

(** String conversion of a boolean inside a template literal. *)
Definition bool_to_string (b : bool) : string :=
  if b then "true" else "false".

(** [`${options.end}${options.strict}${options.sensitive}`] *)
Definition cacheKey (options : CompileOptions) : string :=
  bool_to_string (end_ options) +:+ bool_to_string (strict options)
    +:+ bool_to_string (sensitive options).

Definition log (e : Event) (st : CacheState) : CacheState :=
  {| cache := cache st; cacheCount := cacheCount st; trace := e :: trace st |}.

(** What the cache holds for a pattern and options: the object stored
    under them, if any. *)
Definition cached (st : CacheState) (path : string) (options : CompileOptions)
    : option Compiled :=
  cache st !! cacheKey options ≫= λ pathCache, pathCache !! path.

(** The number of objects the cache holds, over all its keys. *)
Definition entries (st : CacheState) : nat :=
  map_fold (λ _ (pathCache : gmap string Compiled) n, size pathCache + n) 0 (cache st).

(** A computation on the module state: it returns or raises, and leaves a
    state in both cases. *)
Definition M (A : Type) : Type := CacheState → Result A * CacheState.

(** The callbacks of [Array.prototype.reduce] and of
    [React.Children.forEach], run in order, each on the state the one
    before left; an exception ends the iteration. *)
Fixpoint iterate {A B : Type} (f : B → A → nat → M B) (index : nat)
    (l : list A) (memo : B) (st : CacheState) : Result B * CacheState :=
  match l with
  | [] => (Return memo, st)
  | x :: l' =>
      match f memo x index st with
      | (Return memo', st') => iterate f (S index) l' memo' st'
      | (Throw message, st') => (Throw message, st')
      end
  end.

(** [memo[name] = value] on an object created by [{}], for a value that is
    a string or [undefined]: the name [__proto__] is the accessor inherited
    from [Object.prototype], whose setter ignores such a value, and no
    property is created. *)
Definition assign (memo : gmap string (option string)) (name : string)
    (value : option string) : gmap string (option string) :=
  if String.eqb name "__proto__" then memo else <[name := value]> memo.

(** The [params] object: [keys.reduce((memo, key, index) => { memo[key.name]
    = values[index]; return memo }, {})]. *)
Definition params_of (keys : list Key) (values : list (option string))
    : gmap string (option string) :=
  reduce (λ memo key index, assign memo (name key) (at_index values index)) keys ∅.

(** The body of the reducer from [regexp.exec(pathname)] on: the test of
    one candidate [path] with its compiled [regexp] and [keys]. *)
Definition attempt (pathname : string) (exact : bool) (path : string)
    (regexp : RegExp) (keys : list Key) : option MatchResult :=
  match exec regexp pathname with
  | None => None
  | Some (url, values) =>
      let isExact := String.eqb pathname url in
      if exact && negb isExact then None
      else
        Some {| path := path;
                url := if String.eqb path "/" && String.eqb url "" then "/" else url;
                isExact := isExact;
                params := params_of keys values |}
  end.

Section MatchPath.
Context `{PathToRegexp}.

Definition compilePath (path : string) (options : CompileOptions)
    (st : CacheState) : Fetched * CacheState :=
  let st := log (EvCompilePath path options) st in
  let cacheKey := cacheKey options in
  (* cache[cacheKey] || (cache[cacheKey] = {}); a cache key is no inherited name *)
  let pathCache := default ∅ (cache st !! cacheKey) in
  let st := {| cache := <[cacheKey := pathCache]> (cache st);
               cacheCount := cacheCount st; trace := trace st |} in
  (* if (pathCache[path]) return pathCache[path] *)
  match get pathCache path with
  | Some found => (found, st)
  | None =>
      let '(regexp, keys) := pathToRegexp path options in
      let result := {| regexp := regexp; keys := keys; oid := length (trace st) |} in
      let st := log (EvPathToRegexp path options) st in
      if decide (cacheCount st < cacheLimit)%Z then
        (Matcher result,
         {| cache := <[cacheKey := <[path := result]> pathCache]> (cache st);
            cacheCount := cacheCount st + 1; trace := trace st |})
      else (Matcher result, st)
  end.

(** The callback of [paths.reduce] in [matchPath].  When [compilePath]
    hands back a member of [Object.prototype], the [regexp] destructured
    from it is [undefined] and [regexp.exec(pathname)] raises. *)
Definition reducer (pathname : string) (exact strict sensitive : bool)
    (matched : option MatchResult) (path : JsPath) (index : nat)
    : M (option MatchResult) :=
  λ st,
    if negb (truthy path) && not_empty_string path then (Return None, st)
    else
      match matched with
      | Some m => (Return (Some m), st)
      | None =>
          match path with
          | PStr path =>
              let '(found, st) :=
                compilePath path
                  {| end_ := exact; strict := strict; sensitive := sensitive |} st in
              match found with
              | Matcher c =>
                  (Return (attempt pathname exact path (regexp c) (keys c)), st)
              | Member _ => (Throw TypeError, st)
              end
          | PUndefined | PNull => (Return None, st) (* excluded by the guard above *)
          end
      end.

Definition matchPath (pathname : string) (options : Options.t)
    : M (option MatchResult) :=
  λ st,
    let path := Options.path options in
    let exact := default false (Options.exact options) in
    let strict := default false (Options.strict options) in
    let sensitive := default false (Options.sensitive options) in
    let paths := concat_path path in
    let st := log (EvMatchPath pathname paths) st in
    iterate (reducer pathname exact strict sensitive) 0 paths None st.

(** [matchPath] with the normalisation of its second argument. *)
Definition matchPath_arg (pathname : string) (arg : MatchArg)
    : M (option MatchResult) :=
  let options :=
    match arg with
    | ArgString s =>
        {| Options.path := PathOne (PStr s); Options.exact := None;
           Options.strict := None; Options.sensitive := None |}
    | ArgArray ps =>
        {| Options.path := PathArray ps; Options.exact := None;
           Options.strict := None; Options.sensitive := None |}
    | ArgObject options => options
    end in
  matchPath pathname options.
End MatchPath.

(** ** An executable path-to-regexp for segment patterns

    [SegmentLib.pathToRegexp] follows path-to-regexp 1.x (the version whose
    default export takes [(path, keys, options)]) on the patterns made of
    ["/"]-separated segments, each of which is literal text free of the
    characters of the pattern grammar, a named parameter [:name] or an
    optional named parameter [:name?], with an optional trailing ["/"].
    For these the expression built by the package is [^] followed by the
    literal text, a group [\/([^\/]+?)] per parameter (wrapped in [(?: )?]
    when optional), then, unless [strict], [(?:\/(?=$))?] in place of a
    trailing slash of the pattern, and last [$] when [end] is set and
    [(?=\/|$)] otherwise (nothing for a strict pattern that ends in a
    slash); the flag [i] is set unless [sensitive].  A parameter is thus
    followed by a slash or by the end of the input, so that it captures one
    whole segment.  The functions below match the pathname against the
    tokens directly, trying the alternatives in the order a backtracking
    matcher does. *)
Module SegmentLib.

Inductive Token :=
  | Literal (text : list ascii)
  | Param (name : string) (optional : bool).

Definition slash : ascii := "/"%char.

(** The pattern cut at its slashes: the text before the first slash, then
    the text after each slash. *)
Fixpoint segments (cur : list ascii) (l : list ascii) : list (list ascii) :=
  match l with
  | [] => [reverse cur]
  | c :: l' =>
      if Ascii.eqb c slash then reverse cur :: segments [] l'
      else segments (c :: cur) l'
  end.

(** The token of the segment that follows a slash. *)
Definition token_of_segment (seg : list ascii) : Token :=
  match seg with
  | ":"%char :: rest =>
      match reverse rest with
      | "?"%char :: eman => Param (string_of_list_ascii (reverse eman)) true
      | _ => Param (string_of_list_ascii rest) false
      end
  | _ => Literal (slash :: seg)
  end.

Definition parse (path : string) : list Token :=
  match segments [] (list_ascii_of_string path) with
  | [] => []
  | first :: rest =>
      (if decide (first = []) then [] else [Literal first])
        ++ map token_of_segment rest
  end.

Definition lower (c : ascii) : ascii :=
  let n := nat_of_ascii c in
  if ((65 <=? n) && (n <=? 90))%nat then ascii_of_nat (n + 32) else c.

Definition same_char (sensitive : bool) (a b : ascii) : bool :=
  if sensitive then Ascii.eqb a b else Ascii.eqb (lower a) (lower b).

(** The input left after the literal [text], when the input starts with it. *)
Fixpoint eat (sensitive : bool) (text input : list ascii) : option (list ascii) :=
  match text, input with
  | [], _ => Some input
  | _ :: _, [] => None
  | t :: text', c :: input' =>
      if same_char sensitive t c then eat sensitive text' input' else None
  end.

(** The longest run of characters other than the slash, and the rest. *)
Fixpoint span_segment (input : list ascii) : list ascii * list ascii :=
  match input with
  | [] => ([], [])
  | c :: input' =>
      if Ascii.eqb c slash then ([], input)
      else let '(seg, rest) := span_segment input' in (c :: seg, rest)
  end.

(** [\/([^\/]+?)] before a slash or the end of the input: a slash and one
    whole, non-empty segment. *)
Definition eat_param (input : list ascii) : option (string * list ascii) :=
  match input with
  | c :: input' =>
      if Ascii.eqb c slash then
        match span_segment input' with
        | ([], _) => None
        | (seg, rest) => Some (string_of_list_ascii seg, rest)
        end
      else None
  | [] => None
  end.

(** What follows the tokens: the optional trailing slash and the end
    condition.  Returns the input left after the match. *)
Definition tail (options : CompileOptions) (endsWithDelimiter : bool)
    (rest : list ascii) : option (list ascii) :=
  let boundary (r : list ascii) :=
    match r with
    | [] => Some r
    | c :: _ => if Ascii.eqb c slash then Some r else None
    end in
  if strict options then
    if end_ options then (if decide (rest = []) then Some [] else None)
    else if endsWithDelimiter then Some rest
    else boundary rest
  else
    if decide (rest = [slash]) then Some []
    else if end_ options then (if decide (rest = []) then Some [] else None)
    else boundary rest.

(** The tokens against the input, alternatives in backtracking order (an
    optional parameter is first tried present, then absent). *)
Fixpoint run (options : CompileOptions) (endsWithDelimiter : bool)
    (tokens : list Token) (input : list ascii) (values : list (option string))
    : option (list ascii * list (option string)) :=
  match tokens with
  | [] =>
      rest ← tail options endsWithDelimiter input;
      Some (rest, reverse values)
  | Literal text :: tokens' =>
      input' ← eat (sensitive options) text input;
      run options endsWithDelimiter tokens' input' values
  | Param _ optional :: tokens' =>
      let present :=
        '(v, input') ← eat_param input;
        run options endsWithDelimiter tokens' input' (Some v :: values) in
      match present with
      | Some r => Some r
      | None =>
          if optional
          then run options endsWithDelimiter tokens' input (None :: values)
          else None
      end
  end.

(** Whether the route ends with the delimiter, and the tokens with that
    slash removed when the match is not strict. *)
Definition trim (options : CompileOptions) (tokens : list Token)
    : bool * list Token :=
  match reverse tokens with
  | Literal text :: snekot =>
      match reverse text with
      | c :: txet =>
          if Ascii.eqb c slash then
            (true,
             if strict options
             then tokens
             else reverse (Literal (reverse txet) :: snekot))
          else (false, tokens)
      | [] => (false, tokens)
      end
  | _ => (false, tokens)
  end.

Definition exec_tokens (options : CompileOptions) (tokens : list Token)
    (pathname : string) : ExecResult :=
  let input := list_ascii_of_string pathname in
  let '(endsWithDelimiter, tokens) := trim options tokens in
  '(rest, values) ← run options endsWithDelimiter tokens input [];
  Some (string_of_list_ascii (take (length input - length rest) input), values).

Definition keys_of (tokens : list Token) : list Key :=
  omap (λ t, match t with
             | Param n _ => Some {| name := n |}
             | Literal _ => None
             end) tokens.

Definition pathToRegexp : PathToRegexp :=
  λ path options,
    let tokens := parse path in
    ({| exec := exec_tokens options tokens |}, keys_of tokens).

End SegmentLib.
(** ** Locations, the propagated context and React values *)

(** A location of the history package; the router reads [pathname] only. *)
Record Location := { pathname : string }.

(** The value of [RouterContext].  The [history] and [staticContext]
    members are handed down untouched and play no part in the resolution. *)
Module RouterContext.
Record t := {
  location : Location;
  match_ : option MatchResult
}.
End RouterContext.

(** What a render strategy hands to React: a text, or an element made by
    [React.createElement(type, props)]. *)
Inductive ReactNode :=
  | Text (s : string)
  | Element (type : string) (props : RouterContext.t).

(** A renderable value: [null], one node, or an array of nodes. *)
Inductive Rendered :=
  | Null
  | Node (n : ReactNode)
  | Nodes (ns : list ReactNode).

Definition truthy_rendered (v : Rendered) : bool :=
  match v with
  | Null => false
  | Node (Text s) => negb (String.eqb s "")
  | Node (Element _ _) => true
  | Nodes _ => true
  end.

(** The [children] property of a [<Route>]: a function of the context, or a
    value ([ChValue Null] when the property is absent). *)
Inductive Children :=
  | ChFunction (f : RouterContext.t → Rendered)
  | ChValue (v : Rendered).

(** The properties of a [<Route>] (or, under a [<Switch>], of a
    [<Redirect>], which carries [from]).  [options] holds [path], [exact],
    [strict] and [sensitive]. *)
Module Props.
Record t := {
  options : Options.t;
  from : PathProp;
  location : option Location;
  computedMatch : option MatchResult;
  children : Children;
  component : option string;
  render : option (RouterContext.t → Rendered)
}.
End Props.

(** The render strategies of a [<Route>]. *)
Inductive Strategy :=
  | ChildrenFunction
  | FixedChildren
  | NamedComponent
  | RenderFunction.


(** ** Router.js *)
Module Router.

(** The properties read by the constructor: [history.location], and
    whether [staticContext] is given. *)
Record Props := {
  history_location : Location;
  staticContext : bool
}.

(** The instance: [this.state.location], [this._isMounted],
    [this._pendingLocation], whether [this.unlisten] is set, and (a fact
    of the history object) whether the listener is still registered. *)
Record t := {
  location : Location;
  _isMounted : bool;
  _pendingLocation : option Location;
  unlisten : bool;
  subscribed : bool
}.

Definition computeRootMatch (pathname : string) : MatchResult :=
  {| path := "/"; url := "/"; params := ∅; isExact := String.eqb pathname "/" |}.

(** [this.setState({ location })] *)
Definition setState (location : Location) (this : t) : t :=
  {| location := location; _isMounted := _isMounted this;
     _pendingLocation := _pendingLocation this;
     unlisten := unlisten this; subscribed := subscribed this |}.

Definition constructor (props : Props) : t :=
  {| location := history_location props;
     _isMounted := false;
     _pendingLocation := None;
     unlisten := negb (staticContext props);
     subscribed := negb (staticContext props) |}.

(** The callback given to [history.listen]. *)
Definition listener (this : t) (location : Location) : t :=
  if _isMounted this then setState location this
  else
    {| location := Router.location this; _isMounted := _isMounted this;
       _pendingLocation := Some location;
       unlisten := unlisten this; subscribed := subscribed this |}.

Definition componentDidMount (this : t) : t :=
  let this :=
    {| location := location this; _isMounted := true;
       _pendingLocation := _pendingLocation this;
       unlisten := unlisten this; subscribed := subscribed this |} in
  match _pendingLocation this with
  | Some pending => setState pending this
  | None => this
  end.

Definition componentWillUnmount (this : t) : t :=
  if unlisten this then
    {| location := location this; _isMounted := false;
       _pendingLocation := None;
       unlisten := unlisten this; subscribed := false |}
  else this.

(** The context value of [render]. *)
Definition render (this : t) : RouterContext.t :=
  {| RouterContext.location := location this;
     RouterContext.match_ :=
       Some (computeRootMatch (pathname (location this))) |}.

(** What happens to a Router: the history object publishes a location,
    React mounts the component, React unmounts it. *)
Inductive Lifecycle :=
  | Publish (location : Location)
  | DidMount
  | WillUnmount.

(** The history object calls the listeners that are registered. *)
Definition step (this : t) (e : Lifecycle) : t :=
  match e with
  | Publish location => if subscribed this then listener this location else this
  | DidMount => componentDidMount this
  | WillUnmount => componentWillUnmount this
  end.

(** The invariant of the data model: a pending location exists only
    while the component is not mounted. *)
Definition pending_only_while_unmounted (this : t) : Prop :=
  is_Some (_pendingLocation this) → _isMounted this = false.

End Router.


(** ** Route.js *)
Module Route.

(** [isEmptyChildren]: [React.Children.count(children) === 0] on an array
    of nodes. *)
Definition isEmptyChildren (ns : list ReactNode) : bool :=
  Nat.eqb (length ns) 0.

(** [evalChildrenDev]: warns when the function returned [undefined] and
    returns [value || null]. *)
Definition evalChildrenDev (children : RouterContext.t → Rendered)
    (props : RouterContext.t) : Rendered :=
  let value := children props in
  if truthy_rendered value then value else Null.

(** What [render] gives back: the value of the [RouterContext.Provider],
    its content, and the strategy that produced the content. *)
Record Output := {
  value : RouterContext.t;
  content : Rendered;
  invoked : option Strategy
}.

Section Route.
Context `{PathToRegexp}.

(** The location used, and [const match = ...]; an exception of
    [matchPath] leaves [render]. *)
Definition resolve (props : Props.t) (context : RouterContext.t)
    : M (Location * option MatchResult) :=
  λ st,
    let location :=
      default (RouterContext.location context) (Props.location props) in
    match Props.computedMatch props with
    | Some computedMatch => (Return (location, Some computedMatch), st)
    | None =>
        if truthy_prop (Options.path (Props.options props)) then
          match matchPath (pathname location) (Props.options props) st with
          | (Return m, st) => (Return (location, m), st)
          | (Throw message, st) => (Throw message, st)
          end
        else (Return (location, RouterContext.match_ context), st)
    end.

(** The content of the provider, by strategy.  [DEV] is [__DEV__]. *)
Definition select (DEV : bool) (this_props : Props.t)
    (props : RouterContext.t) : Rendered * option Strategy :=
  let children :=
    match Props.children this_props with
    | ChValue (Nodes ns) =>
        if isEmptyChildren ns then ChValue Null else ChValue (Nodes ns)
    | children => children
    end in
  let call (f : RouterContext.t → Rendered) :=
    if DEV then evalChildrenDev f props else f props in
  match RouterContext.match_ props with
  | Some _ =>
      match children with
      | ChFunction f => (call f, Some ChildrenFunction)
      | ChValue v =>
          if truthy_rendered v then (v, Some FixedChildren)
          else
            match Props.component this_props with
            | Some component => (Node (Element component props), Some NamedComponent)
            | None =>
                match Props.render this_props with
                | Some render => (render props, Some RenderFunction)
                | None => (Null, None)
                end
            end
      end
  | None =>
      match children with
      | ChFunction f => (call f, Some ChildrenFunction)
      | ChValue _ => (Null, None)
      end
  end.

Definition render (DEV : bool) (this_props : Props.t)
    (context : option RouterContext.t) : M Output :=
  λ st,
    match context with
    | None => (Throw "You should not use <Route> outside a <Router>", st)
    | Some context =>
        match resolve this_props context st with
        | (Throw message, st) => (Throw message, st)
        | (Return (location, m), st) =>
            (* { ...context, location, match } *)
            let props :=
              {| RouterContext.location := location; RouterContext.match_ := m |} in
            let '(content, strategy) := select DEV this_props props in
            (Return {| value := props; content := content; invoked := strategy |}, st)
        end
    end.
End Route.

End Route.

(** ** Switch.js *)
Module Switch.

(** A child of [<Switch>]: a React element with its properties, or
    anything else ([React.isValidElement] is false). *)
Inductive Child :=
  | NotElement
  | ChildElement (type : string) (props : Props.t).

(** [{ ...child.props, path }] *)
Definition with_path (props : Props.t) (path : PathProp) : Options.t :=
  {| Options.path := path;
     Options.exact := Options.exact (Props.options props);
     Options.strict := Options.strict (Props.options props);
     Options.sensitive := Options.sensitive (Props.options props) |}.

(** [React.cloneElement(element, { location, computedMatch })] *)
Definition cloneElement (element : string * Props.t) (location : Location)
    (computedMatch : MatchResult) : Child :=
  let '(type, props) := element in
  ChildElement type
    {| Props.options := Props.options props;
       Props.from := Props.from props;
       Props.location := Some location;
       Props.computedMatch := Some computedMatch;
       Props.children := Props.children props;
       Props.component := Props.component props;
       Props.render := Props.render props |}.

Section Switch.
Context `{PathToRegexp}.

(** The match of one element child: the right-hand side of
    [match = path ? matchPath(...) : context.match]. *)
Definition match_child (location : Location) (context : RouterContext.t)
    (props : Props.t) : M (option MatchResult) :=
  λ st,
    let path := js_or (Options.path (Props.options props)) (Props.from props) in
    if truthy_prop path
    then matchPath (pathname location) (with_path props path) st
    else (Return (RouterContext.match_ context), st).

(** The callback of [React.Children.forEach]; [element] and [match] are
    the two variables it assigns. *)
Definition visit (location : Location) (context : RouterContext.t)
    (acc : option (string * Props.t) * option MatchResult)
    (child : Child) (index : nat)
    : M (option (string * Props.t) * option MatchResult) :=
  λ st,
    let '(element, m) := acc in
    match m, child with
    | None, ChildElement type props =>
        match match_child location context props st with
        | (Return m, st) => (Return (Some (type, props), m), st)
        | (Throw message, st) => (Throw message, st)
        end
    | _, _ => (Return acc, st)
    end.

Definition render (location : option Location) (children : list Child)
    (context : option RouterContext.t) : M (option Child) :=
  λ st,
    match context with
    | None => (Throw "You should not use <Switch> outside a <Router>", st)
    | Some context =>
        let location := default (RouterContext.location context) location in
        match iterate (visit location context) 0 children (None, None) st with
        | (Throw message, st) => (Throw message, st)
        | (Return (element, m), st) =>
            (Return
               match m, element with
               | Some m, Some element => Some (cloneElement element location m)
               | _, _ => None
               end,
             st)
        end
    end.
End Switch.

End Switch.

(** ** Histories of calls and what is observed of the module state *)

#[global] Instance CompileOptions_eq_dec : EqDecision CompileOptions.
Proof. solve_decision. Defined.
#[global] Instance JsPath_eq_dec : EqDecision JsPath.
Proof. solve_decision. Defined.
#[global] Instance Event_eq_dec : EqDecision Event.
Proof. solve_decision. Defined.


Definition is_compilePath (e : Event) : bool :=
  match e with EvCompilePath _ _ => true | _ => false end.

Definition is_matchPath (e : Event) : bool :=
  match e with EvMatchPath _ _ => true | _ => false end.

(** How many times [compilePath] ran in a trace. *)
Definition lookups (tr : list Event) : nat :=
  length (filter (λ e, is_compilePath e) tr).

(** How many times [matchPath] ran in a trace. *)
Definition resolutions (tr : list Event) : nat :=
  length (filter (λ e, is_matchPath e) tr).

(** A call into matchPath.js. *)
Inductive Call :=
  | CallCompilePath (path : string) (options : CompileOptions)
  | CallMatchPath (pathname : string) (options : Options.t).

(** A caller that compiles [n] patterns, all different: identifiers
    interpolated into the pattern. *)
Definition interpolated (n : nat) : list Call :=
  (λ i : nat,
     CallCompilePath ("/user/" +:+ pretty i)
       {| end_ := false; strict := false; sensitive := false |}) <$> seq 0 n.

(** The candidates the guard [!path && path !== ""] lets through. *)
Definition passes_guard (p : JsPath) : bool :=
  negb (negb (truthy p) && not_empty_string p).

(** The options handed to the compiler by [matchPath]. *)
Definition compile_options (options : Options.t) : CompileOptions :=
  {| end_ := default false (Options.exact options);
     strict := default false (Options.strict options);
     sensitive := default false (Options.sensitive options) |}.

Section Histories.
Context `{PathToRegexp}.

(** A call leaves its state whether it returns or raises. *)
Definition run_call (st : CacheState) (call : Call) : CacheState :=
  match call with
  | CallCompilePath path options => (compilePath path options st).2
  | CallMatchPath pathname options => (matchPath pathname options st).2
  end.

(** The module state after a history of calls, oldest first. *)
Definition run (calls : list Call) (st : CacheState) : CacheState :=
  foldl run_call st calls.

(** The object [compilePath] builds on a miss in state [st]. *)
Definition fresh (path : string) (options : CompileOptions) (st : CacheState)
    : Compiled :=
  {| regexp := (pathToRegexp path options).1;
     keys := (pathToRegexp path options).2;
     oid := S (length (trace st)) |}.

(** Every cached object is what the compiler gives for its pattern and
    options, and no object is stored under an inherited name. *)
Definition cache_ok (st : CacheState) : Prop :=
  ∀ path options c,
    cached st path options = Some c →
    inherited path = false ∧
    regexp c = (pathToRegexp path options).1 ∧
    keys c = (pathToRegexp path options).2.


(** The test of one candidate by itself: what the reducer does with it
    when the cache is empty. *)
Definition candidate (pathname : string) (options : Options.t) (path : JsPath)
    : Result (option MatchResult) :=
  match path with
  | PStr path =>
      if inherited path then Throw TypeError
      else
        let '(regexp, keys) := pathToRegexp path (compile_options options) in
        Return (attempt pathname (default false (Options.exact options)) path regexp keys)
  | PUndefined | PNull => Return None
  end.

(** One step of the reducer, without the cache. *)
Definition accumulate (pathname : string) (options : Options.t)
    (matched : option MatchResult) (path : JsPath) : Result (option MatchResult) :=
  if negb (truthy path) && not_empty_string path then Return None
  else
    match matched with
    | Some m => Return (Some m)
    | None => candidate pathname options path
    end.

(** The reduction over the candidates, without the cache. *)
Fixpoint accumulated (pathname : string) (options : Options.t)
    (matched : option MatchResult) (paths : list JsPath)
    : Result (option MatchResult) :=
  match paths with
  | [] => Return matched
  | p :: paths' =>
      match accumulate pathname options matched p with
      | Return matched' => accumulated pathname options matched' paths'
      | Throw message => Throw message
      end
  end.
End Histories.

(** ** Route: what is declared and what is rendered *)

(** The [children] of a Route after the Preact adjustment of [render]. *)
Definition adjusted_children (props : Props.t) : Children :=
  match Props.children props with
  | ChValue (Nodes ns) =>
      if Route.isEmptyChildren ns then ChValue Null else ChValue (Nodes ns)
  | children => children
  end.

(** Whether a Route declares the strategy. *)
Definition supplied (props : Props.t) (s : Strategy) : bool :=
  match s with
  | ChildrenFunction =>
      match adjusted_children props with ChFunction _ => true | ChValue _ => false end
  | FixedChildren =>
      match adjusted_children props with
      | ChFunction _ => false
      | ChValue v => truthy_rendered v
      end
  | NamedComponent => bool_decide (is_Some (Props.component props))
  | RenderFunction => bool_decide (is_Some (Props.render props))
  end.

(** The strategies, highest priority first. *)
Definition priority : list Strategy :=
  [ChildrenFunction; FixedChildren; NamedComponent; RenderFunction].

(** What a strategy renders. *)
Definition rendering (DEV : bool) (props : Props.t) (value : RouterContext.t)
    (s : Strategy) : Rendered :=
  match s with
  | ChildrenFunction =>
      match adjusted_children props with
      | ChFunction f => if DEV then Route.evalChildrenDev f value else f value
      | ChValue _ => Null
      end
  | FixedChildren =>
      match adjusted_children props with
      | ChFunction _ => Null
      | ChValue v => v
      end
  | NamedComponent =>
      match Props.component props with
      | Some component => Node (Element component value)
      | None => Null
      end
  | RenderFunction =>
      match Props.render props with
      | Some render => render value
      | None => Null
      end
  end.

(** ** Switch: what the children declare *)

(** The effective pattern of a child: its [path], or its [from] when
    [path] is absent (falsy). *)
Definition effective_pattern (props : Props.t) : PathProp :=
  if truthy_prop (Options.path (Props.options props))
  then Options.path (Props.options props)
  else Props.from props.

(** The match a child of [<Switch>] gets by itself: for an element with
    an effective pattern, the result of [matchPath] on the pathname, with
    that pattern and the flags of the element, the cache being empty; for an
    element without one, the match of the context; nothing for a child that
    is not an element. *)
Definition own_match `{PathToRegexp} (location : Location)
    (context : RouterContext.t) (child : Switch.Child)
    : Result (option MatchResult) :=
  match child with
  | Switch.NotElement => Return None
  | Switch.ChildElement _ props =>
      if truthy_prop (effective_pattern props) then
        (matchPath (pathname location)
           {| Options.path := effective_pattern props;
              Options.exact := Options.exact (Props.options props);
              Options.strict := Options.strict (Props.options props);
              Options.sensitive := Options.sensitive (Props.options props) |}
           initial).1
      else Return (RouterContext.match_ context)
  end.

(** Whether the child is an element with a pattern of its own, that is, a
    child for which [Switch] calls [matchPath]. *)
Definition has_pattern (child : Switch.Child) : bool :=
  match child with
  | Switch.NotElement => false
  | Switch.ChildElement _ props =>
      truthy_prop (js_or (Options.path (Props.options props)) (Props.from props))
  end.

(** ** Concrete inputs *)

(** The options [{ path }], with [exact] when given. *)
Definition options_with (path : PathProp) (exact : option bool) : Options.t :=
  {| Options.path := path; Options.exact := exact;
     Options.strict := None; Options.sensitive := None |}.

(** The properties of [<Route path=... exact=... />], with nothing to
    render. *)
Definition route_props (path : PathProp) (exact : option bool) : Props.t :=
  {| Props.options := options_with path exact;
     Props.from := PathOne PUndefined;
     Props.location := None;
     Props.computedMatch := None;
     Props.children := ChValue Null;
     Props.component := None;
     Props.render := None |}.

(** The properties of [<Redirect from=... />] as [Switch] reads them. *)
Definition redirect_props (from : PathProp) : Props.t :=
  {| Props.options := options_with (PathOne PUndefined) None;
     Props.from := from;
     Props.location := None;
     Props.computedMatch := None;
     Props.children := ChValue Null;
     Props.component := None;
     Props.render := None |}.

(** The context a mounted Router at [pathname] provides. *)
Definition context_at (pathname : string) : RouterContext.t :=
  Router.render
    (Router.componentDidMount
       (Router.constructor
          {| Router.history_location := {| pathname := pathname |};
             Router.staticContext := false |})).

(** [<Switch>] over [/x] (exact), [/x/:id] and a Route without a path. *)
Definition three_routes : list Switch.Child :=
  [Switch.ChildElement "Route" (route_props (PathOne (PStr "/x")) (Some true));
   Switch.ChildElement "Route" (route_props (PathOne (PStr "/x/:id")) None);
   Switch.ChildElement "Route" (route_props (PathOne PUndefined) None)].

(** [<Switch>] over [/x] (exact), a Redirect from [/x/:id] and a Route
    without a path. *)
Definition with_redirect : list Switch.Child :=
  [Switch.ChildElement "Route" (route_props (PathOne (PStr "/x")) (Some true));
   Switch.ChildElement "Redirect" (redirect_props (PathOne (PStr "/x/:id")));
   Switch.ChildElement "Route" (route_props (PathOne PUndefined) None)].

(** ** Route.js: the warnings of the development build *)
Module RouteDev.

(** [React.Children.count(children)] on the values of the [children]
    property: [null] and a function count for nothing, a text or an element
    for one, an array for its nodes. *)
Definition count (children : Children) : nat :=
  match children with
  | ChFunction _ => 0
  | ChValue Null => 0
  | ChValue (Node _) => 1
  | ChValue (Nodes ns) => length ns
  end.

(** [isEmptyChildren] on any value of the property. *)
Definition isEmptyChildren (children : Children) : bool :=
  Nat.eqb (count children) 0.

(** JavaScript truthiness of the [children] property. *)
Definition truthy_children (children : Children) : bool :=
  match children with
  | ChFunction _ => true
  | ChValue v => truthy_rendered v
  end.

(** [warning(condition, message)] of tiny-warning: the messages printed. *)
Definition warning (condition : bool) (message : string) : list string :=
  if condition then [] else [message].

Definition component_and_children : string :=
  "You should not use <Route component> and <Route children> in the same route; <Route component> will be ignored".

Definition render_and_children : string :=
  "You should not use <Route render> and <Route children> in the same route; <Route render> will be ignored".

Definition component_and_render : string :=
  "You should not use <Route component> and <Route render> in the same route; <Route render> will be ignored".

(** [Route.prototype.componentDidMount] of the development build. *)
Definition componentDidMount (props : Props.t) : list string :=
  let children := Props.children props in
  let component := bool_decide (is_Some (Props.component props)) in
  let render := bool_decide (is_Some (Props.render props)) in
  warning
    (negb (truthy_children children && negb (isEmptyChildren children) && component))
    component_and_children
  ++ warning
       (negb (truthy_children children && negb (isEmptyChildren children) && render))
       render_and_children
  ++ warning (negb (component && render)) component_and_render.

End RouteDev.

(** ** Properties of the cache *)

Lemma cacheKey_inj (o o' : CompileOptions) : cacheKey o = cacheKey o' → o = o'.
Proof.
  destruct o as [[] [] []], o' as [[] [] []]; cbv; intros Hk;
    first [reflexivity | discriminate Hk].
Qed.

(** A cache key is no inherited name: [cache[cacheKey]] finds what was
    stored under the key, or nothing. *)
Lemma cacheKey_not_inherited (o : CompileOptions) : inherited (cacheKey o) = false.
Proof. by destruct o as [[] [] []]; vm_compute. Qed.


Lemma cached_touch (st : CacheState) (k : string) (n : Z) (tr : list Event)
    (path : string) (options : CompileOptions) :
  cached {| cache := <[k := default ∅ (cache st !! k)]> (cache st);
            cacheCount := n; trace := tr |} path options
  = cached st path options.
Proof.
  unfold cached; simpl.
  destruct (decide (k = cacheKey options)) as [->|Hne].
  - rewrite lookup_insert_eq. by destruct (cache st !! cacheKey options).
  - by rewrite lookup_insert_ne.
Qed.

Lemma cached_store (st : CacheState) (o : CompileOptions) (p : string)
    (c : Compiled) (n : Z) (tr : list Event)
    (path : string) (options : CompileOptions) :
  cached {| cache := <[cacheKey o := <[p := c]> (default ∅ (cache st !! cacheKey o))]>
                       (cache st);
            cacheCount := n; trace := tr |} path options
  = if decide (path = p ∧ options = o) then Some c else cached st path options.
Proof.
  unfold cached; simpl.
  destruct (decide (cacheKey o = cacheKey options)) as [Hk|Hne].
  - apply cacheKey_inj in Hk as <-. rewrite lookup_insert_eq. simpl.
    destruct (decide (p = path)) as [<-|Hp].
    + rewrite lookup_insert_eq. by rewrite decide_True.
    + rewrite lookup_insert_ne by done.
      rewrite decide_False by (intros [E _]; apply Hp; symmetry; exact E).
      by destruct (cache st !! cacheKey o).
  - rewrite lookup_insert_ne by done.
    rewrite decide_False; [done|]. intros [_ ->]. done.
Qed.

Lemma cached_none_lookup (st : CacheState) (path : string) (options : CompileOptions) :
  cached st path options = None →
  default ∅ (cache st !! cacheKey options) !! path = None.
Proof.
  unfold cached. destruct (cache st !! cacheKey options); simpl; [done|].
  intros _. apply lookup_empty.
Qed.

Section CompilePathCases.
Context `{PathToRegexp}.

(** A pattern that is cached: the object stored is returned. *)
Lemma compilePath_hit path options st c :
  cached st path options = Some c →
  compilePath path options st = (Matcher c, log (EvCompilePath path options) st).
Proof.
  unfold cached, compilePath, get. simpl.
  destruct (cache st !! cacheKey options) as [pathCache|] eqn:Hk; simpl; [|done].
  intros ->. by rewrite insert_id.
Qed.

(** A pattern that is an inherited name and is not cached: the member of
    [Object.prototype] is returned, nothing is compiled or stored. *)
Lemma compilePath_member path options st :
  cached st path options = None →
  inherited path = true →
  ∃ st',
    compilePath path options st = (Member path, st') ∧
    trace st' = EvCompilePath path options :: trace st ∧
    cacheCount st' = cacheCount st ∧
    ∀ p o, cached st' p o = cached st p o.
Proof.
  intros Hmiss Hin. unfold compilePath, get. simpl.
  rewrite (cached_none_lookup _ _ _ Hmiss), Hin.
  eexists. split; [reflexivity|]. simpl. split; [done|]. split; [done|].
  intros p o. apply (cached_touch st).
Qed.

(** Any other pattern that is not cached: it is compiled, and stored
    when the counter is below the limit. *)
Lemma compilePath_miss path options st :
  cached st path options = None →
  inherited path = false →
  ∃ st',
    compilePath path options st = (Matcher (fresh path options st), st') ∧
    trace st' = EvPathToRegexp path options :: EvCompilePath path options :: trace st ∧
    if decide (cacheCount st < cacheLimit)%Z then
      cacheCount st' = (cacheCount st + 1)%Z ∧
      ∀ p o, cached st' p o =
             if decide (p = path ∧ o = options)
             then Some (fresh path options st) else cached st p o
    else
      cacheCount st' = cacheCount st ∧
      ∀ p o, cached st' p o = cached st p o.
Proof.
  intros Hmiss Hin. unfold compilePath, fresh, get. simpl.
  rewrite (cached_none_lookup _ _ _ Hmiss), Hin.
  destruct (pathToRegexp path options) as [re ks]. simpl.
  destruct (decide (cacheCount st < cacheLimit)%Z) as [Hlt|Hge]; eexists;
    (split; [reflexivity|]); simpl; (split; [reflexivity|]);
    (split; [reflexivity|]); intros p o.
  - rewrite insert_insert_eq. apply (cached_store st).
  - apply (cached_touch st).
Qed.

End CompilePathCases.

(** The three cases of a call of [compilePath]. *)
Ltac compilePath_cases path options st :=
  let Hc := fresh "Hc" in
  let Hin := fresh "Hin" in
  destruct (cached st path options) as [?c|] eqn:Hc;
  [ rewrite (compilePath_hit path options st _ Hc)
  | destruct (inherited path) eqn:Hin;
    [ destruct (compilePath_member path options st Hc Hin)
        as (?st' & -> & ?Htr & ?Hcount & ?Hcached)
    | destruct (compilePath_miss path options st Hc Hin)
        as (?st' & -> & ?Htr & ?Hst') ] ].

Section CacheLemmas.
Context `{PathToRegexp}.

(** On every call: the event is logged, nothing leaves the cache, and
    the counter does not decrease. *)
Lemma compilePath_trace_suffix path options st :
  trace (log (EvCompilePath path options) st)
    `suffix_of` trace (compilePath path options st).2.
Proof.
  compilePath_cases path options st; simpl.
  - done.
  - by rewrite Htr.
  - rewrite Htr. by apply suffix_cons_r.
Qed.


Lemma compilePath_cache_ok path options st :
  cache_ok st → cache_ok (compilePath path options st).2.
Proof.
  intros Hok. compilePath_cases path options st; simpl.
  - exact Hok.
  - intros p o c'. rewrite Hcached. apply Hok.
  - intros p o c'. destruct (decide (cacheCount st < cacheLimit)%Z);
      destruct Hst' as [_ ->]; [|apply Hok].
    case_decide as Hpo; [|apply Hok].
    destruct Hpo as [-> ->]. by intros [= <-].
Qed.

(** What is returned: for an inherited name the member of
    [Object.prototype], for any other pattern an object with the
    compiler's output, cached or not. *)
Lemma compilePath_result path options st :
  cache_ok st →
  match (compilePath path options st).1 with
  | Matcher c =>
      inherited path = false ∧
      regexp c = (pathToRegexp path options).1 ∧
      keys c = (pathToRegexp path options).2
  | Member n => inherited path = true ∧ n = path
  end.
Proof.
  intros Hok. compilePath_cases path options st; simpl.
  - by apply Hok.
  - done.
  - done.
Qed.


Lemma compilePath_lookups path options st :
  lookups (trace (compilePath path options st).2) = S (lookups (trace st)).
Proof.
  compilePath_cases path options st; simpl; [done|by rewrite Htr..].
Qed.

Lemma compilePath_resolutions path options st :
  resolutions (trace (compilePath path options st).2) = resolutions (trace st).
Proof.
  compilePath_cases path options st; simpl; [done|by rewrite Htr..].
Qed.

Lemma compilePath_count path options st :
  (0 ≤ cacheCount st ≤ cacheLimit)%Z →
  (0 ≤ cacheCount (compilePath path options st).2 ≤ cacheLimit)%Z.
Proof.
  intros Hst. compilePath_cases path options st; simpl.
  - done.
  - by rewrite Hcount.
  - destruct (decide (cacheCount st < cacheLimit)%Z); destruct Hst' as [-> _]; lia.
Qed.

End CacheLemmas.

(** ** Properties of the reducer *)

Lemma reduce_from_app {A B : Type} (f : B → A → nat → B) (l l' : list A)
    (index : nat) (memo : B) :
  reduce_from f index (l ++ l') memo
  = reduce_from f (index + length l) l' (reduce_from f index l memo).
Proof.
  revert index memo. induction l as [|x l IH]; intros index memo; simpl.
  - by rewrite Nat.add_0_r.
  - rewrite IH. f_equal. lia.
Qed.

(** A property of the state that every callback keeps is kept by the
    iteration, whether it ends or raises. *)
Lemma iterate_state {A B : Type} (P : CacheState → Prop) (f : B → A → nat → M B)
    (l : list A) (index : nat) (memo : B) (st : CacheState) :
  (∀ memo x i s, P s → P (f memo x i s).2) →
  P st → P (iterate f index l memo st).2.
Proof.
  intros Hstep. revert index memo st.
  induction l as [|x l IH]; intros index memo st Hst; simpl; [done|].
  specialize (Hstep memo x index st Hst).
  destruct (f memo x index st) as [[message|memo'] st']; simpl in *; [done|].
  by apply IH.
Qed.

Lemma iterate_app {A B : Type} (f : B → A → nat → M B) (l l' : list A)
    (index : nat) (memo : B) (st : CacheState) :
  iterate f index (l ++ l') memo st
  = match iterate f index l memo st with
    | (Return memo', st') => iterate f (index + length l) l' memo' st'
    | (Throw message, st') => (Throw message, st')
    end.
Proof.
  revert index memo st. induction l as [|x l IH]; intros index memo st; simpl.
  - by rewrite Nat.add_0_r.
  - destruct (f memo x index st) as [[message|memo'] st']; [done|].
    rewrite IH. by replace (S index + length l) with (index + S (length l)) by lia.
Qed.

Section ReducerLemmas.
Context `{PathToRegexp}.

Lemma cache_ok_log e st : cache_ok (log e st) ↔ cache_ok st.
Proof. done. Qed.

Lemma cache_ok_initial_none path options : cached initial path options = None.
Proof. unfold cached. simpl. by rewrite lookup_empty. Qed.

Lemma cache_ok_initial : cache_ok initial.
Proof. intros path options c. by rewrite cache_ok_initial_none. Qed.

(** The step of the reducer on a candidate stopped by the guard. *)
Lemma reducer_stopped pathname exact strict sensitive matched st p index :
  passes_guard p = false →
  reducer pathname exact strict sensitive matched p index st = (Return None, st).
Proof.
  unfold passes_guard, reducer. intros Hp.
  by destruct (negb (truthy p) && not_empty_string p).
Qed.

(** The step of the reducer on a string, something being matched. *)
Lemma reducer_kept pathname exact strict sensitive m st s index :
  reducer pathname exact strict sensitive (Some m) (PStr s) index st
  = (Return (Some m), st).
Proof. unfold reducer. simpl. by destruct (String.eqb s ""). Qed.

(** The step of the reducer on a string, nothing being matched yet. *)
Lemma reducer_string pathname exact strict sensitive st s index :
  reducer pathname exact strict sensitive None (PStr s) index st
  = let called :=
      compilePath s {| end_ := exact; strict := strict; sensitive := sensitive |} st in
    (match called.1 with
     | Matcher c => Return (attempt pathname exact s (regexp c) (keys c))
     | Member _ => Throw TypeError
     end, called.2).
Proof.
  unfold reducer. simpl.
  destruct (compilePath s _ st) as [[c|n] st'];
    by destruct (String.eqb s "").
Qed.

(** A property of the module state that [compilePath] keeps is kept by
    one step of the reducer, and so by the whole reduction. *)
Lemma reducer_state (P : CacheState → Prop) pathname exact strict sensitive
    matched p index st :
  (∀ p o s, P s → P (compilePath p o s).2) →
  P st → P (reducer pathname exact strict sensitive matched p index st).2.
Proof.
  intros Hstep Hst. destruct (passes_guard p) eqn:Hp.
  - destruct p as [s| |]; [|done..].
    destruct matched as [m|]; [by rewrite reducer_kept|].
    rewrite reducer_string. simpl. by apply Hstep.
  - by rewrite reducer_stopped.
Qed.

Lemma matchPath_state (P : CacheState → Prop) pathname options st :
  (∀ pn ps s, P s → P (log (EvMatchPath pn ps) s)) →
  (∀ p o s, P s → P (compilePath p o s).2) →
  P st → P (matchPath pathname options st).2.
Proof.
  intros Hlog Hstep Hst. unfold matchPath.
  apply iterate_state; [|by apply Hlog].
  intros memo x i s. by apply reducer_state.
Qed.

(** With a sound cache, one step of the reducer computes [accumulate]. *)
Lemma reducer_accumulate pathname options matched st path index :
  cache_ok st →
  (reducer pathname (default false (Options.exact options))
     (default false (Options.strict options))
     (default false (Options.sensitive options)) matched path index st).1
  = accumulate pathname options matched path.
Proof.
  intros Hok. unfold accumulate. destruct (passes_guard path) eqn:Hp.
  - unfold passes_guard in Hp. apply negb_true_iff in Hp. rewrite Hp.
    destruct path as [s| |]; [|done..].
    destruct matched as [m|]; [by rewrite reducer_kept|].
    rewrite reducer_string. simpl.
    pose proof (compilePath_result s (compile_options options) st Hok) as Hres.
    unfold compile_options in Hres.
    destruct (compilePath s _ st) as [[c|n] st']; simpl in *.
    + destruct Hres as (-> & -> & ->).
      unfold compile_options. by destruct (pathToRegexp s _).
    + by destruct Hres as [-> _].
  - rewrite reducer_stopped by done.
    unfold passes_guard in Hp. apply negb_false_iff in Hp. by rewrite Hp.
Qed.

Lemma iterate_reducer_result pathname options paths index matched st :
  cache_ok st →
  (iterate
     (reducer pathname (default false (Options.exact options))
        (default false (Options.strict options))
        (default false (Options.sensitive options))) index paths matched st).1
  = accumulated pathname options matched paths.
Proof.
  revert index matched st.
  induction paths as [|p paths IH]; intros index matched st Hok;
    cbn [iterate accumulated]; [done|].
  rewrite <- (reducer_accumulate pathname options matched st p index Hok).
  assert (cache_ok (reducer pathname (default false (Options.exact options))
                      (default false (Options.strict options))
                      (default false (Options.sensitive options))
                      matched p index st).2) as Hok'.
  { apply reducer_state; [|done]. intros p' o s. apply compilePath_cache_ok. }
  destruct (reducer pathname _ _ _ matched p index st) as [[message|m'] st'];
    simpl in *; [done|].
  by apply IH.
Qed.

(** A string or an array as second argument is the [path] of the options. *)
Lemma matchPath_arg_path pathname st s ps :
  matchPath_arg pathname (ArgString s) st
  = matchPath pathname (options_with (PathOne (PStr s)) None) st ∧
  matchPath_arg pathname (ArgArray ps) st
  = matchPath pathname (options_with (PathArray ps) None) st.
Proof. done. Qed.

(** The outcome of [matchPath] does not depend on what the cache holds. *)
Lemma matchPath_result pathname options st :
  cache_ok st →
  (matchPath pathname options st).1
  = accumulated pathname options None (concat_path (Options.path options)).
Proof.
  intros Hok. unfold matchPath. by apply iterate_reducer_result.
Qed.

Lemma matchPath_cache_ok pathname options st :
  cache_ok st → cache_ok (matchPath pathname options st).2.
Proof.
  apply matchPath_state; [done|]. intros p o s. apply compilePath_cache_ok.
Qed.

Lemma run_call_cache_ok st call : cache_ok st → cache_ok (run_call st call).
Proof.
  destruct call; simpl; [apply compilePath_cache_ok | apply matchPath_cache_ok].
Qed.


(** A property that [compilePath] and the logging of a [matchPath] call
    keep is kept by every history. *)
Lemma run_state (P : CacheState → Prop) calls st :
  (∀ pn ps s, P s → P (log (EvMatchPath pn ps) s)) →
  (∀ p o s, P s → P (compilePath p o s).2) →
  P st → P (run calls st).
Proof.
  intros Hlog Hstep. revert st.
  induction calls as [|call calls IH]; intros st Hst; simpl; [done|].
  apply IH. destruct call; simpl; [by apply Hstep | by apply matchPath_state].
Qed.

Lemma run_cache_ok calls st : cache_ok st → cache_ok (run calls st).
Proof.
  apply run_state; [done|]. intros p o s. apply compilePath_cache_ok.
Qed.


(** One call of [matchPath] is one resolution. *)
Lemma matchPath_resolutions pathname options st :
  resolutions (trace (matchPath pathname options st).2)
  = S (resolutions (trace st)).
Proof.
  unfold matchPath.
  apply (iterate_state (λ s, resolutions (trace s) = S (resolutions (trace st))));
    [|done].
  intros memo x i s Hs.
  apply (reducer_state (λ s, resolutions (trace s) = S (resolutions (trace st))));
    [|done].
  intros p o s' <-. apply compilePath_resolutions.
Qed.
End ReducerLemmas.

(** ** Creations are counted by the trace *)


Section CreationLemmas.
Context `{PathToRegexp}.




End CreationLemmas.

(** ** The counter, and a caller that fills the cache *)

Lemma fold_sizes_insert (m : gmap string (gmap string Compiled)) (k : string)
    (pc : gmap string Compiled) :
  m !! k = None →
  map_fold (λ _ (pathCache : gmap string Compiled) n, size pathCache + n) 0 (<[k := pc]> m)
  = size pc
    + map_fold (λ _ (pathCache : gmap string Compiled) n, size pathCache + n) 0 m.
Proof.
  intros Hk.
  apply (map_fold_insert_L
           (λ _ (pathCache : gmap string Compiled) n, size pathCache + n)); [|done].
  intros. lia.
Qed.

Lemma fold_sizes_replace (m : gmap string (gmap string Compiled)) (k : string)
    (pc pc' : gmap string Compiled) :
  m !! k = Some pc →
  map_fold (λ _ (pathCache : gmap string Compiled) n, size pathCache + n) 0 (<[k := pc']> m)
    + size pc
  = size pc'
    + map_fold (λ _ (pathCache : gmap string Compiled) n, size pathCache + n) 0 m.
Proof.
  intros Hk.
  rewrite <- (insert_delete_eq m k pc').
  rewrite <- (insert_delete_id m k pc) at 2 by done.
  rewrite !fold_sizes_insert by apply lookup_delete_eq. lia.
Qed.

Section CounterLemmas.
Context `{PathToRegexp}.

Lemma compilePath_entries path options st :
  cacheCount st = Z.of_nat (entries st) →
  cacheCount (compilePath path options st).2
  = Z.of_nat (entries (compilePath path options st).2).
Proof.
  unfold compilePath, entries, get. simpl. intros Hst.
  destruct (cache st !! cacheKey options) as [pathCache|] eqn:Hk; simpl.
  - rewrite insert_id by done.
    destruct (pathCache !! path) as [c|] eqn:Hp; simpl; [done|].
    destruct (inherited path); simpl; [done|].
    destruct (pathToRegexp path options) as [re ks]. simpl.
    case_decide; simpl; [|done].
    pose proof (fold_sizes_replace (cache st) (cacheKey options) pathCache
      (<[path := {| regexp := re; keys := ks; oid := S (length (trace st)) |}]>
         pathCache) Hk) as Hsz.
    rewrite map_size_insert_None in Hsz by done. lia.
  - rewrite lookup_empty.
    destruct (inherited path); simpl.
    { rewrite fold_sizes_insert by done. rewrite map_size_empty. lia. }
    destruct (pathToRegexp path options) as [re ks]. simpl.
    case_decide; simpl.
    + rewrite insert_insert_eq, fold_sizes_insert by done.
      rewrite map_size_insert_None by apply lookup_empty.
      rewrite map_size_empty. lia.
    + rewrite fold_sizes_insert by done. rewrite map_size_empty. lia.
Qed.

(** The counter is the number of objects in the cache. *)
Lemma run_entries calls :
  cacheCount (run calls initial) = Z.of_nat (entries (run calls initial)).
Proof.
  apply (run_state (λ s, cacheCount s = Z.of_nat (entries s))); [done| |done].
  intros p o s. apply compilePath_entries.
Qed.

(** The counter never passes the limit. *)
Lemma run_count calls : (0 ≤ cacheCount (run calls initial) ≤ cacheLimit)%Z.
Proof.
  apply (run_state (λ s, (0 ≤ cacheCount s ≤ cacheLimit)%Z)); [done| |done].
  intros p o s. apply compilePath_count.
Qed.



End CounterLemmas.

(** ** The cache policy of [compilePath] *)


(** ** What the reduction over the candidates computes *)

Lemma passes_guard_string (p : JsPath) :
  passes_guard p = true ↔ ∃ s, p = PStr s.
Proof.
  destruct p as [s| |]; unfold passes_guard; simpl.
  - split; [by exists s|]. intros _. by destruct (String.eqb s "").
  - split; [done|]. by intros [s ?].
  - split; [done|]. by intros [s ?].
Qed.

Section AccumulateLemmas.
Context `{PathToRegexp}.

Lemma accumulate_guarded pathname options matched p :
  passes_guard p = true →
  accumulate pathname options matched p
  = match matched with
    | Some m => Return (Some m)
    | None => candidate pathname options p
    end.
Proof.
  unfold passes_guard, accumulate. intros Hp. apply negb_true_iff in Hp.
  by rewrite Hp.
Qed.

Lemma accumulate_stopped pathname options matched p :
  passes_guard p = false →
  accumulate pathname options matched p = Return None.
Proof.
  unfold passes_guard, accumulate. intros Hp. apply negb_false_iff in Hp.
  by rewrite Hp.
Qed.

(** A candidate stopped by the guard does not match by itself. *)
Lemma candidate_stopped pathname options p :
  passes_guard p = false → candidate pathname options p = Return None.
Proof. by destruct p as [s| |]; [destruct s|..]. Qed.

Lemma accumulated_app pathname options matched l l' :
  accumulated pathname options matched (l ++ l')
  = match accumulated pathname options matched l with
    | Return matched' => accumulated pathname options matched' l'
    | Throw message => Throw message
    end.
Proof.
  revert matched. induction l as [|p l IH]; intros matched; simpl; [done|].
  by destruct (accumulate pathname options matched p) as [message|matched'].
Qed.

Lemma accumulated_matched pathname options m paths :
  Forall (λ p, passes_guard p = true) paths →
  accumulated pathname options (Some m) paths = Return (Some m).
Proof.
  induction 1 as [|p paths Hp _ IH]; simpl; [done|].
  by rewrite accumulate_guarded.
Qed.

(** No candidate matches: the result is [null]. *)
Lemma accumulated_no_match pathname options paths :
  Forall (λ q, candidate pathname options q = Return None) paths →
  accumulated pathname options None paths = Return None.
Proof.
  induction 1 as [|q paths Hq _ IH]; simpl; [done|].
  destruct (passes_guard q) eqn:Hg.
  - by rewrite accumulate_guarded, Hq.
  - by rewrite accumulate_stopped.
Qed.

(** Without a candidate stopped by the guard, the first candidate that
    matches gives the result. *)
Lemma accumulated_first_match pathname options pre p post r :
  Forall (λ q, passes_guard q = true) (pre ++ p :: post) →
  Forall (λ q, candidate pathname options q = Return None) pre →
  candidate pathname options p = Return (Some r) →
  accumulated pathname options None (pre ++ p :: post) = Return (Some r).
Proof.
  intros Hguard Hpre Hp. apply Forall_app in Hguard as [Hg1 Hg2].
  apply Forall_cons in Hg2 as [Hgp Hg2].
  rewrite accumulated_app, accumulated_no_match by done. simpl.
  rewrite accumulate_guarded, Hp by done. by apply accumulated_matched.
Qed.

(** A candidate stopped by the guard forgets what was matched before
    it: the result is the one of the candidates that follow. *)
Lemma accumulated_guard_resets pathname options matched pre p post matched' :
  accumulated pathname options matched pre = Return matched' →
  passes_guard p = false →
  accumulated pathname options matched (pre ++ p :: post)
  = accumulated pathname options None post.
Proof.
  intros Hpre Hp. rewrite accumulated_app, Hpre. simpl.
  by rewrite accumulate_stopped.
Qed.

(** A result comes from one of the candidates. *)
Lemma accumulated_some pathname options matched paths r :
  accumulated pathname options matched paths = Return (Some r) →
  matched = Some r
  ∨ ∃ s, PStr s ∈ paths ∧ candidate pathname options (PStr s) = Return (Some r).
Proof.
  revert matched. induction paths as [|p paths IH]; intros matched; simpl.
  { intros [= ->]. by left. }
  destruct (accumulate pathname options matched p) as [message|matched'] eqn:Hacc;
    [done|].
  intros Hr. apply IH in Hr as [-> |(s & Hs & Hr)].
  - destruct (passes_guard p) eqn:Hg.
    + rewrite accumulate_guarded in Hacc by done.
      destruct matched as [m|]; [left; congruence|].
      right. apply passes_guard_string in Hg as [s ->].
      exists s. split; [by left|done].
    + by rewrite accumulate_stopped in Hacc.
  - right. exists s. split; [by right|done].
Qed.

(** Once a candidate has matched, the candidates that pass the guard are
    not looked up: the module state stays as it is. *)
Lemma iterate_reducer_matched pathname exact strict sensitive paths index m st :
  Forall (λ p, passes_guard p = true) paths →
  iterate (reducer pathname exact strict sensitive) index paths (Some m) st
  = (Return (Some m), st).
Proof.
  intros Hguard. revert index.
  induction Hguard as [|p paths Hp _ IH]; intros index; simpl; [done|].
  apply passes_guard_string in Hp as [s ->].
  rewrite reducer_kept. apply IH.
Qed.
End AccumulateLemmas.

(** ** The [params] object *)

Lemma lookup_assign (memo : gmap string (option string)) (n : string)
    (v : option string) (n' : string) :
  assign memo n v !! n'
  = if decide (n = n' ∧ n ≠ "__proto__"%string) then Some v else memo !! n'.
Proof.
  unfold assign. destruct (String.eqb_spec n "__proto__") as [->|Hne].
  - rewrite decide_False; [done|]. by intros [_ ?].
  - destruct (decide (n = n')) as [->|Hn].
    + rewrite lookup_insert_eq. by rewrite decide_True.
    + rewrite lookup_insert_ne by done. rewrite decide_False; [done|]. by intros [? _].
Qed.

Lemma params_of_snoc (keys : list Key) (k : Key) (values : list (option string)) :
  params_of (keys ++ [k]) values
  = assign (params_of keys values) (name k) (at_index values (length keys)).
Proof. unfold params_of, reduce. by rewrite reduce_from_app. Qed.

(** The properties of [params] are the names of the keys, [__proto__]
    apart. *)
Lemma params_of_dom (keys : list Key) (values : list (option string)) (n : string) :
  is_Some (params_of keys values !! n)
  ↔ n ∈ name <$> keys ∧ n ≠ "__proto__"%string.
Proof.
  induction keys as [|k keys IH] using rev_ind.
  - unfold params_of, reduce. simpl. rewrite lookup_empty.
    split; [by intros [? ?]|]. by intros [?%elem_of_nil _].
  - rewrite params_of_snoc, lookup_assign, fmap_app, elem_of_app. simpl.
    rewrite list_elem_of_singleton.
    case_decide as Hk.
    + destruct Hk as [<- Hk]. split; [|by eexists]. intros _. split; [by right|done].
    + rewrite IH. split.
      * intros [Hin Hn]. split; [by left|done].
      * intros [[Hin| ->] Hn]; [done|]. by destruct Hk.
Qed.

(** A name other than [__proto__] holds the value at the last position
    where it is declared. *)
Lemma params_of_lookup (keys : list Key) (values : list (option string))
    (i : nat) (k : Key) :
  keys !! i = Some k →
  name k ≠ "__proto__"%string →
  (∀ j k', keys !! j = Some k' → name k' = name k → j ≤ i) →
  params_of keys values !! name k = Some (at_index values i).
Proof.
  intros Hi Hname. revert i Hi.
  induction keys as [|k0 keys IH] using rev_ind; intros i Hi Hlast.
  - by rewrite lookup_nil in Hi.
  - rewrite params_of_snoc, lookup_assign.
    destruct (decide (i = length keys)) as [->|Hne].
    + rewrite list_lookup_middle in Hi by done. injection Hi as ->.
      by rewrite decide_True.
    + assert (i < length keys) as Hlt.
      { apply lookup_lt_Some in Hi. rewrite length_app in Hi. simpl in Hi. lia. }
      rewrite lookup_app_l in Hi by done.
      assert (name k0 ≠ name k) as Hk0.
      { intros Heq. specialize (Hlast (length keys) k0).
        rewrite list_lookup_middle in Hlast by done.
        specialize (Hlast eq_refl Heq). lia. }
      rewrite decide_False by (by intros [? _]). apply IH; [done|].
      intros j k' Hj. apply Hlast. by rewrite lookup_app_l by by eapply lookup_lt_Some.
Qed.

(** When every group took part in the match and there are as many values
    as keys, no property of [params] is [undefined]. *)
Lemma params_of_defined (keys : list Key) (values : list (option string))
    (n : string) (v : option string) :
  length keys ≤ length values →
  Forall is_Some values →
  params_of keys values !! n = Some v → is_Some v.
Proof.
  intros Hlen Hvalues. revert v.
  induction keys as [|k keys IH] using rev_ind; intros v.
  - unfold params_of, reduce. simpl. by rewrite lookup_empty.
  - rewrite length_app in Hlen. simpl in Hlen. rewrite params_of_snoc, lookup_assign.
    case_decide as Hk.
    + intros [= <-]. unfold at_index.
      destruct (values !! length keys) as [value|] eqn:Hvalue.
      * simpl. eapply Forall_lookup_1 in Hvalues; [|done]. done.
      * apply lookup_ge_None in Hvalue. lia.
    + apply IH. lia.
Qed.

(** ** The shape of a result *)

Lemma attempt_some pathname exact path regexp keys r :
  attempt pathname exact path regexp keys = Some r →
  ∃ u values,
    exec regexp pathname = Some (u, values) ∧
    (exact = true → pathname = u) ∧
    r = {| path := path;
           url := if String.eqb path "/" && String.eqb u "" then "/" else u;
           isExact := String.eqb pathname u;
           params := params_of keys values |}.
Proof.
  unfold attempt. destruct (exec regexp pathname) as [[u values]|]; [|done].
  destruct (exact && negb (String.eqb pathname u)) eqn:Hexact; [done|].
  intros [= <-]. exists u, values. split; [done|]. split; [|done].
  intros ->. simpl in Hexact. apply negb_false_iff in Hexact.
  by apply String.eqb_eq.
Qed.

Section ResultLemmas.
Context `{PathToRegexp}.

(** A candidate that gives a result is a string that is not an inherited
    name, and the result is the test of that string. *)
Lemma candidate_some pathname options p r :
  candidate pathname options p = Return (Some r) →
  ∃ s, p = PStr s ∧ inherited s = false ∧
       attempt pathname (default false (Options.exact options)) s
         (pathToRegexp s (compile_options options)).1
         (pathToRegexp s (compile_options options)).2 = Some r.
Proof.
  destruct p as [s| |]; [|done..]. unfold candidate.
  destruct (inherited s) eqn:Hin; [done|].
  destruct (pathToRegexp s (compile_options options)) as [re ks] eqn:Hlib.
  intros [= Hr]. exists s. by rewrite Hlib.
Qed.

(** A result of [matchPath] was built from the [exec] of the matcher of
    one of the candidates, which it names in [path]. *)
Lemma matchPath_some calls pathname options r :
  (matchPath pathname options (run calls initial)).1 = Return (Some r) →
  PStr (path r) ∈ concat_path (Options.path options) ∧
  inherited (path r) = false ∧
  ∃ u values,
    exec (pathToRegexp (path r) (compile_options options)).1 pathname
      = Some (u, values) ∧
    url r = (if String.eqb (path r) "/" && String.eqb u "" then "/" else u) ∧
    isExact r = String.eqb pathname u ∧
    params r = params_of (pathToRegexp (path r) (compile_options options)).2 values.
Proof.
  rewrite matchPath_result by apply run_cache_ok, cache_ok_initial.
  intros [?|(s & Hs & Hr)]%accumulated_some; [done|].
  apply candidate_some in Hr as (s' & [= <-] & Hin & Hr).
  apply attempt_some in Hr as (u & values & Hexec & _ & ->). simpl.
  split; [done|]. split; [done|]. by exists u, values.
Qed.
End ResultLemmas.

(** The parts of a one-character string. *)
Lemma part_of_slash (a u b : string) :
  "/" = a +:+ u +:+ b → u = "" ∨ u = "/".
Proof.
  destruct a as [|c a]; simpl.
  - destruct u as [|c u]; [by left|]. simpl. intros [= <- Hrest].
    destruct u; [by right|done].
  - intros [= <- Hrest]. destruct a; [|done]. simpl in Hrest.
    destruct u; [by left|done].
Qed.


(** C5, as the code has it.  For every successful match, with [keys] the
    key list of the matched pattern and [values] the captures of the
    match: the properties of [params] are exactly the names of the keys
    other than [__proto__]; each such name holds the value captured at the
    position of the key (the last such position, when the name is declared
    more than once), which is [undefined] when the group took no part in
    the match; and when there are as many values as keys and every group
    took part, no property is [undefined]. *)
Theorem matchPath_params `{PathToRegexp} (calls : list Call) (pathname : string)
    (options : Options.t) (r : MatchResult) :
  (matchPath pathname options (run calls initial)).1 = Return (Some r) →
  let keys := (pathToRegexp (path r) (compile_options options)).2 in
  ∃ u values,
    exec (pathToRegexp (path r) (compile_options options)).1 pathname
      = Some (u, values) ∧
    (∀ n, is_Some (params r !! n) ↔ n ∈ name <$> keys ∧ n ≠ "__proto__"%string) ∧
    (∀ i k, keys !! i = Some k →
            name k ≠ "__proto__"%string →
            (∀ j k', keys !! j = Some k' → name k' = name k → j ≤ i) →
            params r !! name k = Some (at_index values i)) ∧
    (length keys ≤ length values → Forall is_Some values →
     ∀ n v, params r !! n = Some v → is_Some v).
Proof.
  intros Hr keys.
  apply matchPath_some in Hr as (_ & _ & u & values & Hexec & _ & _ & Hparams).
  exists u, values. split; [done|]. rewrite Hparams. split; [|split].
  - intros n. apply params_of_dom.
  - intros i k. apply params_of_lookup.
  - intros Hlen Hvalues n v. by apply params_of_defined.
Qed.

(** C9.  In every state the module can reach: (1) when the matcher of the
    pattern ["/"] succeeds on the pathname ["/"], its full match being a
    part of that pathname, [matchPath("/", { path: "/" })] returns a result
    whose [url] is ["/"]; (2) for every result, with [u] the full match:
    the [url] is ["/"] when the pattern is ["/"] and [u] is empty, and is
    [u] itself for every other pattern and for every non-empty [u]; the
    [url] of a result for the pattern ["/"] is never empty. *)
Theorem matchPath_root_url `{PathToRegexp} (calls : list Call) :
  let st := run calls initial in
  let root :=
    {| Options.path := PathOne (PStr "/"); Options.exact := None;
       Options.strict := None; Options.sensitive := None |} in
  (∀ u values,
     exec (pathToRegexp "/" (compile_options root)).1 "/" = Some (u, values) →
     (∃ a b, "/" = a +:+ u +:+ b) →
     ∃ r, (matchPath "/" root st).1 = Return (Some r) ∧ url r = "/")
  ∧ (∀ pathname options r,
       (matchPath pathname options st).1 = Return (Some r) →
       ∃ u values,
         exec (pathToRegexp (path r) (compile_options options)).1 pathname
           = Some (u, values) ∧
         (path r = "/" → u = "" → url r = "/") ∧
         (path r ≠ "/" → url r = u) ∧
         (u ≠ "" → url r = u) ∧
         (path r = "/" → url r ≠ "")).
Proof.
  intros st root. split.
  - intros u values Hexec (a & b & Hpart).
    rewrite matchPath_result by apply run_cache_ok, cache_ok_initial.
    simpl. unfold accumulate, candidate. simpl.
    change {| end_ := false; strict := false; sensitive := false |}
      with (compile_options root).
    change (inherited "/") with false. cbv iota.
    destruct (pathToRegexp "/" (compile_options root)) as [re ks].
    simpl in Hexec. unfold attempt. rewrite Hexec. simpl.
    eexists. split; [done|]. simpl.
    by destruct (part_of_slash _ _ _ Hpart) as [-> | ->].
  - intros pathname options r Hr.
    apply matchPath_some in Hr as (_ & _ & u & values & Hexec & Hurl & _).
    exists u, values. split; [done|]. rewrite Hurl.
    repeat split.
    + by intros -> ->.
    + intros Hne. apply String.eqb_neq in Hne. by rewrite Hne.
    + intros Hne. apply String.eqb_neq in Hne. by rewrite Hne, andb_false_r.
    + intros ->. simpl. destruct (String.eqb u "") eqn:Hu; [done|].
      by apply String.eqb_neq.
Qed.
(** ** The Router before and after it is mounted *)

Lemma listener_unmounted (this : Router.t) (location : Location) :
  Router._isMounted this = false →
  Router.listener this location
  = {| Router.location := Router.location this;
       Router._isMounted := false;
       Router._pendingLocation := Some location;
       Router.unlisten := Router.unlisten this;
       Router.subscribed := Router.subscribed this |}.
Proof. unfold Router.listener. by intros ->. Qed.

Lemma listener_mounted (this : Router.t) (location : Location) :
  Router._isMounted this = true →
  Router.listener this location = Router.setState location this.
Proof. unfold Router.listener. by intros ->. Qed.

(** Before the mount, the callbacks leave everything but the pending slot
    as the constructor set it. *)
Lemma listeners_before_mount (props : Router.Props) (published : list Location) :
  let this := foldl Router.listener (Router.constructor props) published in
  Router.location this = Router.history_location props ∧
  Router._isMounted this = false ∧
  Router._pendingLocation this = last published ∧
  Router.unlisten this = negb (Router.staticContext props) ∧
  Router.subscribed this = negb (Router.staticContext props).
Proof.
  induction published as [|location published IH] using rev_ind; [done|].
  rewrite foldl_app. simpl. destruct IH as (Hloc & Hmounted & _ & Hun & Hsub).
  rewrite listener_unmounted by done. simpl. by rewrite last_snoc.
Qed.

(** While the component is mounted, the callbacks set the current location
    and leave the pending slot alone. *)
Lemma listeners_after_mount (this : Router.t) (published : list Location) :
  Router._isMounted this = true →
  let this' := foldl Router.listener this published in
  Router._isMounted this' = true ∧
  Router._pendingLocation this' = Router._pendingLocation this ∧
  Router.location this' = default (Router.location this) (last published).
Proof.
  intros Hmounted.
  induction published as [|location published IH] using rev_ind; [done|].
  rewrite foldl_app. simpl. destruct IH as (Hm & Hpending & _).
  rewrite listener_mounted by done. simpl. by rewrite last_snoc.
Qed.

(** Before the mount, a Router that listens gets every location the
    history object publishes; a static Router gets none. *)
Lemma publish_before_mount (props : Router.Props) (published : list Location) :
  foldl Router.step (Router.constructor props) (Router.Publish <$> published)
  = if Router.staticContext props
    then Router.constructor props
    else foldl Router.listener (Router.constructor props) published.
Proof.
  induction published as [|location published IH] using rev_ind.
  - by destruct (Router.staticContext props).
  - rewrite fmap_app, !foldl_app. simpl. rewrite IH.
    destruct (Router.staticContext props) eqn:Hstatic; simpl.
    + by rewrite Hstatic.
    + destruct (listeners_before_mount props published) as (_ & _ & _ & _ & ->).
      by rewrite Hstatic.
Qed.

Lemma step_listens (this : Router.t) (e : Router.Lifecycle) :
  (Router.subscribed this = true → Router.unlisten this = true) ∧
  (is_Some (Router._pendingLocation this) → Router.unlisten this = true) →
  (Router.subscribed (Router.step this e) = true →
   Router.unlisten (Router.step this e) = true) ∧
  (is_Some (Router._pendingLocation (Router.step this e)) →
   Router.unlisten (Router.step this e) = true).
Proof.
  destruct this as [loc [] [p|] [] []], e as [l| |]; simpl;
    intros [Hsub Hpending]; split; intros Hyp;
    first [ done
          | by apply Hsub
          | by apply Hpending
          | by destruct Hyp
          | by specialize (Hsub eq_refl)
          | by specialize (Hpending (mk_is_Some _ _ eq_refl)) ].
Qed.

(** Whatever happens to a Router, a filled pending slot means that the
    Router listens, and a Router that no longer listens ignores what is
    published. *)
Lemma Router_history (props : Router.Props) (events : list Router.Lifecycle) :
  let this := foldl Router.step (Router.constructor props) events in
  (Router.subscribed this = true → Router.unlisten this = true) ∧
  (is_Some (Router._pendingLocation this) → Router.unlisten this = true) ∧
  (Router.subscribed this = false →
   ∀ location, Router.step this (Router.Publish location) = this).
Proof.
  intros this.
  assert ((Router.subscribed this = true → Router.unlisten this = true) ∧
          (is_Some (Router._pendingLocation this) → Router.unlisten this = true))
    as [Hsub Hpending].
  { subst this. induction events as [|e events IH] using rev_ind.
    - simpl. split; [done|]. by intros [? ?].
    - rewrite foldl_app. simpl. by apply step_listens. }
  split; [done|]. split; [done|].
  intros Hoff location. simpl. by rewrite Hoff.
Qed.

(** C2.  After the constructor and any callbacks of the location feed, in
    the order they fired: the current location is still the initial one,
    the component is not mounted, and the pending slot holds the last
    location published (nothing when no callback fired); one more callback
    changes the pending slot only; and [componentDidMount] makes the last
    location published the current one, or keeps the initial location when
    no callback fired. *)
Theorem Router_buffers_until_mount (props : Router.Props)
    (published : list Location) (next : Location) :
  let this := foldl Router.listener (Router.constructor props) published in
  Router.location this = Router.history_location props ∧
  Router._isMounted this = false ∧
  Router._pendingLocation this = last published ∧
  Router.listener this next
  = {| Router.location := Router.location this;
       Router._isMounted := Router._isMounted this;
       Router._pendingLocation := Some next;
       Router.unlisten := Router.unlisten this;
       Router.subscribed := Router.subscribed this |} ∧
  Router._isMounted (Router.componentDidMount this) = true ∧
  Router.location (Router.componentDidMount this)
  = default (Router.history_location props) (last published).
Proof.
  intros this.
  destruct (listeners_before_mount props published) as (Hloc & Hm & Hp & _ & _).
  fold this in Hloc, Hm, Hp.
  repeat split; try done.
  - rewrite listener_unmounted by done. by rewrite Hm.
  - unfold Router.componentDidMount. simpl.
    by destruct (Router._pendingLocation this).
  - unfold Router.componentDidMount. simpl. rewrite Hp.
    by destruct (last published).
Qed.

(** C3, as the code has it.  [componentDidMount] sets the mounted flag,
    makes a pending location the current one and leaves the pending slot as
    it is; a callback writes the pending slot only when the component is
    not mounted, so that the slot keeps its value for as long as the
    component is mounted; [componentWillUnmount] of a Router that listens
    clears the slot and the flag. *)
Theorem Router_pending_slot (this : Router.t) (location : Location)
    (published : list Location) :
  let mounted := Router.componentDidMount this in
  Router._isMounted mounted = true ∧
  Router.location mounted
  = default (Router.location this) (Router._pendingLocation this) ∧
  Router._pendingLocation mounted = Router._pendingLocation this ∧
  Router._pendingLocation (Router.listener this location)
  = (if Router._isMounted this then Router._pendingLocation this else Some location) ∧
  Router._pendingLocation (foldl Router.listener mounted published)
  = Router._pendingLocation this ∧
  Router._pendingLocation (Router.componentWillUnmount this)
  = (if Router.unlisten this then None else Router._pendingLocation this) ∧
  Router._isMounted (Router.componentWillUnmount this)
  = (if Router.unlisten this then false else Router._isMounted this).
Proof.
  intros mounted.
  assert (Router._isMounted mounted = true) as Hm.
  { unfold mounted, Router.componentDidMount. simpl.
    by destruct (Router._pendingLocation this). }
  assert (Router._pendingLocation mounted = Router._pendingLocation this) as Hp.
  { unfold mounted, Router.componentDidMount. simpl.
    by destruct (Router._pendingLocation this). }
  repeat split; try done.
  - unfold mounted, Router.componentDidMount. simpl.
    by destruct (Router._pendingLocation this).
  - unfold Router.listener. by destruct (Router._isMounted this).
  - destruct (listeners_after_mount mounted published Hm) as (_ & -> & _). done.
  - unfold Router.componentWillUnmount. by destruct (Router.unlisten this).
  - unfold Router.componentWillUnmount. by destruct (Router.unlisten this).
Qed.


(** ** Route: the effective match and the render strategy *)

(** C7.  [Route.render] under a Router provides: as location, the
    [location] property when given and the location of the context
    otherwise; as match, [computedMatch] itself when it is given (the
    module state is not touched); otherwise, when [path] is truthy, the
    result of [matchPath] on the pathname of that location with the Route's
    own properties, in the state that call leaves ([render] raises what
    [matchPath] raises); otherwise the match of the context (the module
    state is not touched). *)
Theorem Route_effective_match `{PathToRegexp} (DEV : bool) (props : Props.t)
    (context : RouterContext.t) (st : CacheState) :
  let location :=
    default (RouterContext.location context) (Props.location props) in
  let provides (m : option MatchResult) (st' : CacheState) :=
    ∃ output,
      Route.render DEV props (Some context) st = (Return output, st') ∧
      RouterContext.location (Route.value output) = location ∧
      RouterContext.match_ (Route.value output) = m in
  match Props.computedMatch props with
  | Some computedMatch => provides (Some computedMatch) st
  | None =>
      if truthy_prop (Options.path (Props.options props)) then
        match matchPath (pathname location) (Props.options props) st with
        | (Return m, st') => provides m st'
        | (Throw message, st') =>
            Route.render DEV props (Some context) st = (Throw message, st')
        end
      else provides (RouterContext.match_ context) st
  end.
Proof.
  intros location provides. unfold provides, Route.render, Route.resolve.
  fold location.
  destruct (Props.computedMatch props) as [computedMatch|].
  - destruct (Route.select DEV props _) as [content strategy].
    by eexists.
  - destruct (truthy_prop (Options.path (Props.options props))).
    + destruct (matchPath (pathname location) (Props.options props) st)
        as [[message|m] st']; [done|].
      destruct (Route.select DEV props _) as [content strategy].
      by eexists.
    + destruct (Route.select DEV props _) as [content strategy].
      by eexists.
Qed.

Lemma select_supplied (DEV : bool) (props : Props.t)
    (value : RouterContext.t) :
  Route.select DEV props value
  = let strategy :=
      match RouterContext.match_ value with
      | Some _ => head (filter (λ s, supplied props s) priority)
      | None => if supplied props ChildrenFunction then Some ChildrenFunction else None
      end in
    (from_option (rendering DEV props value) Null strategy, strategy).
Proof.
  unfold Route.select, supplied, rendering, adjusted_children, priority.
  destruct (RouterContext.match_ value) as [m|];
    destruct (Props.children props) as [f|[|n|[|n ns]]]; simpl; try done.
  all: try (destruct n as [s|type p]; simpl; try done;
            destruct (String.eqb s ""); simpl; try done).
  all: destruct (Props.component props) as [component|],
         (Props.render props) as [render|]; simpl; done.
Qed.

(** [Route.render] raises only what [matchPath] raised for the Route's
    own path. *)
Lemma Route_render_throws `{PathToRegexp} (DEV : bool) (props : Props.t)
    (context : RouterContext.t) (st st' : CacheState) (message : string) :
  Route.render DEV props (Some context) st = (Throw message, st') →
  Props.computedMatch props = None ∧
  truthy_prop (Options.path (Props.options props)) = true ∧
  matchPath
    (pathname (default (RouterContext.location context) (Props.location props)))
    (Props.options props) st = (Throw message, st').
Proof.
  unfold Route.render, Route.resolve.
  destruct (Props.computedMatch props) as [computedMatch|].
  { by destruct (Route.select DEV props _). }
  destruct (truthy_prop (Options.path (Props.options props))).
  - destruct (matchPath _ (Props.options props) st) as [[message'|m] st1].
    + by intros [= -> ->].
    + by destruct (Route.select DEV props _).
  - by destruct (Route.select DEV props _).
Qed.

(** C8, as the code has it.  [Route.render] invokes at most one strategy.
    When the effective match is present it is the first strategy the
    Route declares in the order children-as-function, fixed children, named
    component, render function, and none when the Route declares no
    strategy; when the effective match is absent it is children-as-function
    when the Route declares it, and none otherwise.  The content is what the
    invoked strategy renders, and [null] when none is invoked.  ([render]
    raises, and nothing is invoked, only when [matchPath] raised for the
    Route's own path.) *)
Theorem Route_render_strategy `{PathToRegexp} (DEV : bool) (props : Props.t)
    (context : RouterContext.t) (st : CacheState) :
  match Route.render DEV props (Some context) st with
  | (Return output, _) =>
      Route.invoked output
      = match RouterContext.match_ (Route.value output) with
        | Some _ => head (filter (λ s, supplied props s) priority)
        | None => if supplied props ChildrenFunction then Some ChildrenFunction else None
        end ∧
      Route.content output
      = from_option (rendering DEV props (Route.value output)) Null
          (Route.invoked output)
  | (Throw message, st') =>
      Props.computedMatch props = None ∧
      truthy_prop (Options.path (Props.options props)) = true ∧
      matchPath
        (pathname (default (RouterContext.location context) (Props.location props)))
        (Props.options props) st = (Throw message, st')
  end.
Proof.
  destruct (Route.render DEV props (Some context) st) as [[message|output] st']
    eqn:Hrender.
  - by apply (Route_render_throws DEV).
  - unfold Route.render in Hrender.
    destruct (Route.resolve props context st) as [[message|[location m]] st1];
      [done|].
    rewrite select_supplied in Hrender. simpl in Hrender.
    by injection Hrender as <- _.
Qed.

(** A pattern that is not an inherited name gets a compiled object. *)
Lemma compilePath_matcher `{PathToRegexp} path options st :
  inherited path = false → ∃ c, (compilePath path options st).1 = Matcher c.
Proof.
  intros Hpath. compilePath_cases path options st; simpl;
    [by eexists|congruence|by eexists].
Qed.

(** C10.  A Route whose [path] is the empty string and which has no
    [computedMatch] provides the match of the context, and its [render]
    leaves the module state as it is: [matchPath] is not called.
    [matchPath] itself, given the empty string as [path], logs the call and
    looks the pattern up with [compilePath], which gives a compiled object,
    and its result is the test of that candidate. *)
Theorem Route_empty_path `{PathToRegexp} (DEV : bool) (props : Props.t)
    (context : RouterContext.t) (st : CacheState) :
  Options.path (Props.options props) = PathOne (PStr "") →
  Props.computedMatch props = None →
  (∃ output,
     Route.render DEV props (Some context) st = (Return output, st) ∧
     RouterContext.match_ (Route.value output) = RouterContext.match_ context) ∧
  (∀ pathname,
     let exact := default false (Options.exact (Props.options props)) in
     let called :=
       compilePath "" (compile_options (Props.options props))
         (log (EvMatchPath pathname [PStr ""]) st) in
     ∃ c,
       called.1 = Matcher c ∧
       matchPath pathname (Props.options props) st
       = (Return (attempt pathname exact "" (regexp c) (keys c)), called.2)).
Proof.
  intros Hpath Hcomputed. split.
  - unfold Route.render, Route.resolve. rewrite Hcomputed, Hpath. simpl.
    destruct (Route.select DEV props _) as [content strategy].
    by eexists.
  - intros pathname exact called.
    destruct (compilePath_matcher "" (compile_options (Props.options props))
                (log (EvMatchPath pathname [PStr ""]) st) eq_refl) as [c Hc].
    fold called in Hc. exists c. split; [done|].
    unfold matchPath. rewrite Hpath. cbn [concat_path iterate].
    rewrite reducer_string. fold (compile_options (Props.options props)).
    fold called. cbv zeta. by rewrite Hc.
Qed.

(** ** Switch: the first child that matches *)

Section SwitchLemmas.
Context `{PathToRegexp}.

(** What [Switch] computes for an element is the match the element gets
    by itself, whatever the cache holds. *)
Lemma match_child_result location context type props st :
  cache_ok st →
  (Switch.match_child location context props st).1
  = own_match location context (Switch.ChildElement type props) ∧
  cache_ok (Switch.match_child location context props st).2 ∧
  resolutions (trace (Switch.match_child location context props st).2)
  = resolutions (trace st)
    + (if has_pattern (Switch.ChildElement type props) then 1 else 0).
Proof.
  intros Hok.
  unfold Switch.match_child, own_match, has_pattern, effective_pattern,
    Switch.with_path, js_or.
  destruct (truthy_prop (Options.path (Props.options props))) eqn:Hpath.
  - rewrite Hpath.
    rewrite !matchPath_result by (done || apply cache_ok_initial).
    rewrite matchPath_resolutions.
    split; [done|]. split; [by apply matchPath_cache_ok|lia].
  - destruct (truthy_prop (Props.from props)).
    + rewrite !matchPath_result by (done || apply cache_ok_initial).
      rewrite matchPath_resolutions.
      split; [done|]. split; [by apply matchPath_cache_ok|lia].
    + split; [done|]. split; [done|]. simpl. lia.
Qed.

(** The visit of an element, nothing being matched yet. *)
Lemma visit_element location context element type props index st :
  Switch.visit location context (element, None) (Switch.ChildElement type props)
    index st
  = match Switch.match_child location context props st with
    | (Return m, st') => (Return (Some (type, props), m), st')
    | (Throw message, st') => (Throw message, st')
    end.
Proof. reflexivity. Qed.

(** The children before the first match are visited and none is kept. *)
Lemma visit_no_match location context children index element st :
  cache_ok st →
  Forall (λ c, own_match location context c = Return None) children →
  ∃ element' st',
    iterate (Switch.visit location context) index children (element, None) st
    = (Return (element', None), st') ∧
    cache_ok st' ∧
    resolutions (trace st')
    = resolutions (trace st) + length (filter (λ c, has_pattern c) children).
Proof.
  intros Hok Hnone. revert index element st Hok.
  induction Hnone as [|child children Hchild _ IH]; intros index element st Hok.
  - exists element, st. simpl. split; [done|]. split; [done|lia].
  - cbn [iterate]. destruct child as [|type props].
    + destruct (IH (S index) element st Hok) as (element' & st' & Hvisit & Hok' & Hres).
      exists element', st'. split; [exact Hvisit|]. split; [done|].
      by rewrite filter_cons.
    + destruct (match_child_result location context type props st Hok)
        as (Hm & Hok' & Hres).
      rewrite Hchild in Hm. rewrite visit_element.
      destruct (Switch.match_child location context props st) as [[message|m] st1];
        cbn [fst snd] in Hm, Hok', Hres; [done|]. injection Hm as ->.
      destruct (IH (S index) (Some (type, props)) st1 Hok')
        as (element' & st' & Hvisit & Hok'' & Hres').
      exists element', st'. split; [exact Hvisit|]. split; [done|].
      rewrite Hres', Hres.
      destruct (has_pattern (Switch.ChildElement type props)) eqn:Hpattern.
      * rewrite filter_cons_True by by rewrite Hpattern. simpl. lia.
      * rewrite filter_cons_False by (rewrite Hpattern; simpl; tauto). lia.
Qed.

(** After a match, no child is visited. *)
Lemma visit_matched location context children index element m st :
  iterate (Switch.visit location context) index children (element, Some m) st
  = (Return (element, Some m), st).
Proof.
  revert index. induction children as [|child children IH]; intros index;
    simpl; [done|apply IH].
Qed.
End SwitchLemmas.

(** No child matches: [Switch] renders [null]. *)
Lemma Switch_no_match `{PathToRegexp} (calls : list Call) (location : option Location)
    (context : RouterContext.t) (children : list Switch.Child) :
  let loc := default (RouterContext.location context) location in
  Forall (λ c, own_match loc context c = Return None) children →
  (Switch.render location children (Some context) (run calls initial)).1
  = Return None.
Proof.
  intros loc Hnone. unfold Switch.render. fold loc.
  destruct (visit_no_match loc context children 0 None (run calls initial))
    as (element & st' & -> & _); [|done..].
  apply run_cache_ok, cache_ok_initial.
Qed.

(** C6.  In every state the module can reach, for children
    [pre ++ child :: post] where no child of [pre] gets a match by itself
    and the element [child] gets the match [m] by itself, that is, from
    [matchPath] on the pathname of the location with its effective pattern
    (its [path], or its [from] when [path] is falsy) and its own flags, or
    from the context when it has neither: [Switch.render] returns [child]
    cloned with the location and with [m] as [computedMatch]; the module
    state is the one left by rendering [pre ++ [child]], whatever [post]
    is, and [matchPath] was called once for each child of [pre ++ [child]]
    that has a pattern; and the [render] of the clone, as a Route, provides
    [m] as match and the location of the Switch without touching the module
    state. *)
Theorem Switch_selects_first `{PathToRegexp} (calls : list Call)
    (location : option Location) (context : RouterContext.t)
    (pre : list Switch.Child) (type : string) (props : Props.t)
    (post : list Switch.Child) (m : MatchResult) :
  let st := run calls initial in
  let loc := default (RouterContext.location context) location in
  let child := Switch.ChildElement type props in
  Forall (λ c, own_match loc context c = Return None) pre →
  own_match loc context child = Return (Some m) →
  let out := Switch.render location (pre ++ child :: post) (Some context) st in
  ∃ props',
    out.1 = Return (Some (Switch.ChildElement type props')) ∧
    Switch.ChildElement type props' = Switch.cloneElement (type, props) loc m ∧
    out.2 = (Switch.render location (pre ++ [child]) (Some context) st).2 ∧
    resolutions (trace out.2)
    = resolutions (trace st) + length (filter (λ c, has_pattern c) (pre ++ [child])) ∧
    ∀ DEV context' st',
      ∃ output,
        Route.render DEV props' (Some context') st' = (Return output, st') ∧
        RouterContext.match_ (Route.value output) = Some m ∧
        RouterContext.location (Route.value output) = loc.
Proof.
  intros st loc child Hpre Hchild out. subst child.
  assert (cache_ok st) as Hok by apply run_cache_ok, cache_ok_initial.
  destruct (visit_no_match loc context pre 0 None st Hok Hpre)
    as (element & st1 & Hvisit & Hok1 & Hres1).
  destruct (match_child_result loc context type props st1 Hok1) as (Hm & _ & Hres2).
  rewrite Hchild in Hm.
  eexists. subst out. unfold Switch.render. fold loc.
  rewrite !iterate_app, Hvisit. cbn [iterate]. rewrite !visit_element.
  destruct (Switch.match_child loc context props st1) as [[message|m'] st2];
    cbn [fst snd] in Hm, Hres2; [done|]. injection Hm as ->.
  rewrite visit_matched. simpl.
  split; [reflexivity|]. split; [reflexivity|]. split; [reflexivity|]. split.
  - rewrite Hres2, Hres1, filter_app, length_app.
    destruct (has_pattern (Switch.ChildElement type props)) eqn:Hpattern.
    + rewrite filter_cons_True by by rewrite Hpattern. simpl. lia.
    + rewrite filter_cons_False by (rewrite Hpattern; simpl; tauto). simpl. lia.
  - intros DEV context' st'. unfold Route.render, Route.resolve. simpl.
    destruct (Route.select DEV _ _) as [content strategy]. by eexists.
Qed.

(** ** Candidates one after the other *)

Section FirstMatch.
Context `{PathToRegexp}.

Lemma lookups_log_matchPath pathname paths st :
  lookups (trace (log (EvMatchPath pathname paths) st)) = lookups (trace st).
Proof. reflexivity. Qed.

(** Candidates that pass the guard and do not match are each looked up
    once, and leave the accumulator empty. *)
Lemma iterate_reducer_no_match pathname options paths index st :
  cache_ok st →
  Forall (λ q, passes_guard q = true) paths →
  Forall (λ q, candidate pathname options q = Return None) paths →
  ∃ st',
    iterate
      (reducer pathname (default false (Options.exact options))
         (default false (Options.strict options))
         (default false (Options.sensitive options))) index paths None st
    = (Return None, st') ∧
    cache_ok st' ∧
    lookups (trace st') = lookups (trace st) + length paths.
Proof.
  intros Hok Hguard. revert index st Hok.
  induction Hguard as [|p paths Hp _ IH]; intros index st Hok Hnone.
  - exists st. simpl. split; [done|]. split; [done|lia].
  - apply Forall_cons in Hnone as [Hnone1 Hnone].
    cbn [iterate].
    pose proof (reducer_accumulate pathname options None st p index Hok) as Hacc.
    rewrite accumulate_guarded, Hnone1 in Hacc by done.
    apply passes_guard_string in Hp as [s ->].
    rewrite reducer_string in Hacc |- *.
    pose proof (compilePath_cache_ok s (compile_options options) st Hok) as Hok'.
    pose proof (compilePath_lookups s (compile_options options) st) as Hlook.
    unfold compile_options in Hok', Hlook.
    destruct (compilePath s _ st) as [found st1]. simpl in Hacc, Hok', Hlook |- *.
    rewrite Hacc.
    destruct (IH (S index) st1 Hok' Hnone) as (st' & -> & Hok'' & Hlook').
    exists st'. split; [done|]. split; [done|]. simpl. lia.
Qed.

(** When every candidate passes the guard, the first candidate that
    matches gives the result, and the candidates after it are not looked
    up.  (A candidate that is an inherited name neither matches nor fails
    to match: its test raises.) *)
Lemma matchPath_first_match calls pathname options pre p post r :
  let st := run calls initial in
  concat_path (Options.path options) = pre ++ p :: post →
  Forall (λ q, passes_guard q = true) (pre ++ p :: post) →
  Forall (λ q, candidate pathname options q = Return None) pre →
  candidate pathname options p = Return (Some r) →
  (matchPath pathname options st).1 = Return (Some r) ∧
  lookups (trace (matchPath pathname options st).2)
  = lookups (trace st) + length pre + 1.
Proof.
  intros st Hpaths Hguard Hpre Hp.
  assert (cache_ok st) as Hok by apply run_cache_ok, cache_ok_initial.
  split.
  - rewrite matchPath_result by done. rewrite Hpaths.
    by apply accumulated_first_match.
  - unfold matchPath. rewrite Hpaths, iterate_app.
    apply Forall_app in Hguard as [Hg1 Hg2].
    apply Forall_cons in Hg2 as [Hgp Hg2].
    destruct (iterate_reducer_no_match pathname options pre 0
                (log (EvMatchPath pathname (pre ++ p :: post)) st))
      as (st1 & -> & Hok1 & Hlook1); [done..|].
    cbn [iterate].
    pose proof (reducer_accumulate pathname options None st1 p
                  (0 + length pre) Hok1) as Hacc.
    rewrite accumulate_guarded, Hp in Hacc by done.
    apply passes_guard_string in Hgp as [s ->].
    rewrite reducer_string in Hacc |- *.
    pose proof (compilePath_lookups s (compile_options options) st1) as Hlook.
    unfold compile_options in Hlook.
    destruct (compilePath s _ st1) as [found st2]. simpl in Hacc, Hlook |- *.
    rewrite Hacc.
    rewrite iterate_reducer_matched by done. simpl.
    rewrite Hlook, Hlook1, lookups_log_matchPath. lia.
Qed.

(** A candidate stopped by the guard makes [matchPath] forget the match
    found before it, when the candidates before it did not raise. *)
Lemma matchPath_guard_resets calls pathname options pre p post matched :
  concat_path (Options.path options) = pre ++ p :: post →
  accumulated pathname options None pre = Return matched →
  passes_guard p = false →
  (matchPath pathname options (run calls initial)).1
  = accumulated pathname options None post.
Proof.
  intros Hpaths Hpre Hp.
  rewrite matchPath_result by apply run_cache_ok, cache_ok_initial.
  rewrite Hpaths. by eapply accumulated_guard_resets.
Qed.
End FirstMatch.

(** ** Concrete calls, run with [SegmentLib] *)

Section Concrete.
#[local] Existing Instance SegmentLib.pathToRegexp.

(** C1.  [matchPath("/a", { path: ["/a"] })] returns the match of ["/a"];
    with [null] after that candidate, [matchPath("/a", { path: ["/a",
    null] })] returns [null]: the guard on the falsy candidate comes
    before the test of [matched] and resets the accumulator.  With ["/b"]
    after the [null], that later candidate is looked up, the first one
    having matched. *)
Theorem matchPath_null_after_match :
  (matchPath "/a" (options_with (PathArray [PStr "/a"]) None) initial).1
  = Return (Some {| path := "/a"; url := "/a"; isExact := true; params := ∅ |}) ∧
  (matchPath "/a" (options_with (PathArray [PStr "/a"; PNull]) None) initial).1
  = Return None ∧
  trace (matchPath "/a" (options_with (PathArray [PStr "/a"; PNull; PStr "/b"]) None)
           initial).2
  = [EvPathToRegexp "/b" {| end_ := false; strict := false; sensitive := false |};
     EvCompilePath "/b" {| end_ := false; strict := false; sensitive := false |};
     EvPathToRegexp "/a" {| end_ := false; strict := false; sensitive := false |};
     EvCompilePath "/a" {| end_ := false; strict := false; sensitive := false |};
     EvMatchPath "/a" [PStr "/a"; PNull; PStr "/b"]].
Proof. vm_compute. done. Qed.

(** Counterexample to C3: after a location was published before the
    mount, the mounted Router still has it in the pending slot. *)
Lemma Router_pending_after_mount :
  ¬ Router.pending_only_while_unmounted
      (Router.componentDidMount
         (Router.listener
            (Router.constructor
               {| Router.history_location := {| pathname := "/" |};
                  Router.staticContext := false |})
            {| pathname := "/login" |})).
Proof.
  unfold Router.pending_only_while_unmounted. simpl.
  intros Hinv. by specialize (Hinv (mk_is_Some _ _ eq_refl)).
Qed.

(** Counterexample to C5: an optional parameter that is absent from the
    pathname is a property of [params] whose value is [undefined], the
    matcher giving one value for its one key. *)
Lemma optional_param_undefined :
  ∃ r values,
    (matchPath "/a" (options_with (PathOne (PStr "/a/:id?")) None) initial).1
      = Return (Some r) ∧
    (pathToRegexp "/a/:id?"
       (compile_options (options_with (PathOne (PStr "/a/:id?")) None))).2
      = [{| name := "id" |}] ∧
    exec (pathToRegexp "/a/:id?"
            (compile_options (options_with (PathOne (PStr "/a/:id?")) None))).1
         "/a"
      = Some ("/a", values) ∧
    length values = 1 ∧
    params r !! "id" = Some None.
Proof. eexists _, _. vm_compute. done. Qed.

(** A parameter named [__proto__] is declared by the pattern and
    captured by the match, and is no property of [params]. *)
Lemma proto_param_dropped :
  (matchPath "/x" (options_with (PathOne (PStr "/:__proto__")) None) initial).1
  = Return (Some {| path := "/:__proto__"; url := "/x"; isExact := true;
                    params := ∅ |}) ∧
  (pathToRegexp "/:__proto__"
     (compile_options (options_with (PathOne (PStr "/:__proto__")) None))).2
  = [{| name := "__proto__" |}] ∧
  exec (pathToRegexp "/:__proto__"
          (compile_options (options_with (PathOne (PStr "/:__proto__")) None))).1
       "/x"
  = Some ("/x", [Some "x"]).
Proof. vm_compute. done. Qed.

(** Counterexample to C8: a Route that matches and declares no strategy
    invokes none. *)
Lemma Route_without_strategy :
  ∃ output st',
    Route.render false (route_props (PathOne (PStr "/x")) None)
      (Some (context_at "/x")) initial = (Return output, st') ∧
    is_Some (RouterContext.match_ (Route.value output)) ∧
    Route.invoked output = None.
Proof. eexists _, _. vm_compute. split; [done|]. split; [by eexists|done]. Qed.
End Concrete.

Section Witnesses.
#[local] Existing Instance SegmentLib.pathToRegexp.


Lemma matchPath_params_witness :
  let options := options_with (PathOne (PStr "/one/:id")) None in
  let r := {| path := "/one/:id"; url := "/one/two"; isExact := true;
              params := {[ "id" := Some "two" ]} |} in
  let keys := (pathToRegexp (path r) (compile_options options)).2 in
  ∃ u values,
    exec (pathToRegexp (path r) (compile_options options)).1 "/one/two"
      = Some (u, values) ∧
    (∀ n, is_Some (params r !! n) ↔ n ∈ name <$> keys ∧ n ≠ "__proto__"%string) ∧
    (∀ i k, keys !! i = Some k →
            name k ≠ "__proto__"%string →
            (∀ j k', keys !! j = Some k' → name k' = name k → j ≤ i) →
            params r !! name k = Some (at_index values i)) ∧
    (length keys ≤ length values → Forall is_Some values →
     ∀ n v, params r !! n = Some v → is_Some v).
Proof.
  intros options r.
  apply (matchPath_params [] "/one/two" options r).
  vm_compute. reflexivity.
Defined.

Lemma matchPath_root_url_witness :
  let root :=
    {| Options.path := PathOne (PStr "/"); Options.exact := None;
       Options.strict := None; Options.sensitive := None |} in
  let r := {| path := "/"; url := "/"; isExact := false; params := ∅ |} in
  (∃ r, (matchPath "/" root initial).1 = Return (Some r) ∧ url r = "/")
  ∧ (∃ u values,
       exec (pathToRegexp (path r) (compile_options root)).1 "/foo"
         = Some (u, values) ∧
       (path r = "/" → u = "" → url r = "/") ∧
       (path r ≠ "/" → url r = u) ∧
       (u ≠ "" → url r = u) ∧
       (path r = "/" → url r ≠ "")).
Proof.
  intros root r. destruct (matchPath_root_url []) as [Hroot Hurl]. split.
  - apply (Hroot "/" []).
    + vm_compute. reflexivity.
    + exists "", "". reflexivity.
  - apply (Hurl "/foo" root r). vm_compute. reflexivity.
Defined.

Lemma Route_empty_path_witness :
  let props := route_props (PathOne (PStr "")) None in
  (∃ output,
     Route.render false props (Some (context_at "/x")) initial
       = (Return output, initial) ∧
     RouterContext.match_ (Route.value output)
       = RouterContext.match_ (context_at "/x")) ∧
  (∀ pathname,
     let exact := default false (Options.exact (Props.options props)) in
     let called :=
       compilePath "" (compile_options (Props.options props))
         (log (EvMatchPath pathname [PStr ""]) initial) in
     ∃ c,
       called.1 = Matcher c ∧
       matchPath pathname (Props.options props) initial
       = (Return (attempt pathname exact "" (regexp c) (keys c)), called.2)).
Proof.
  intros props.
  apply (Route_empty_path false props (context_at "/x") initial); reflexivity.
Defined.

(** The Switch at work: over three Routes, and with a Redirect whose
    [from] is the pattern that matches. *)
Lemma Switch_selects_first_witness :
  let context := context_at "/x/42" in
  let loc := {| pathname := "/x/42" |} in
  let m := {| path := "/x/:id"; url := "/x/42"; isExact := true;
              params := {[ "id" := Some "42" ]} |} in
  (let props := route_props (PathOne (PStr "/x/:id")) None in
   let out := Switch.render None three_routes (Some context) initial in
   ∃ props',
     out.1 = Return (Some (Switch.ChildElement "Route" props')) ∧
     Switch.ChildElement "Route" props' = Switch.cloneElement ("Route", props) loc m ∧
     out.2
     = (Switch.render None
          [Switch.ChildElement "Route" (route_props (PathOne (PStr "/x")) (Some true));
           Switch.ChildElement "Route" props]
          (Some context) initial).2 ∧
     resolutions (trace out.2) = 2 ∧
     ∀ DEV context' st',
       ∃ output,
         Route.render DEV props' (Some context') st' = (Return output, st') ∧
         RouterContext.match_ (Route.value output) = Some m ∧
         RouterContext.location (Route.value output) = loc)
  ∧ (let props := redirect_props (PathOne (PStr "/x/:id")) in
     let out := Switch.render None with_redirect (Some context) initial in
     ∃ props',
       out.1 = Return (Some (Switch.ChildElement "Redirect" props')) ∧
       Switch.ChildElement "Redirect" props'
       = Switch.cloneElement ("Redirect", props) loc m ∧
       out.2
       = (Switch.render None
            [Switch.ChildElement "Route" (route_props (PathOne (PStr "/x")) (Some true));
             Switch.ChildElement "Redirect" props]
            (Some context) initial).2 ∧
       resolutions (trace out.2) = 2 ∧
       ∀ DEV context' st',
         ∃ output,
           Route.render DEV props' (Some context') st' = (Return output, st') ∧
           RouterContext.match_ (Route.value output) = Some m ∧
           RouterContext.location (Route.value output) = loc).
Proof.
  intros context loc m. split.
  - intros props out.
    apply (Switch_selects_first [] None context
             [Switch.ChildElement "Route" (route_props (PathOne (PStr "/x")) (Some true))]
             "Route" props
             [Switch.ChildElement "Route" (route_props (PathOne PUndefined) None)] m).
    + constructor; [|constructor]. vm_compute. reflexivity.
    + vm_compute. reflexivity.
  - intros props out.
    apply (Switch_selects_first [] None context
             [Switch.ChildElement "Route" (route_props (PathOne (PStr "/x")) (Some true))]
             "Redirect" props
             [Switch.ChildElement "Route" (route_props (PathOne PUndefined) None)] m).
    + constructor; [|constructor]. vm_compute. reflexivity.
    + vm_compute. reflexivity.
Defined.
End Witnesses.

(** ** More on the cache *)

(** In every state the module can reach, the counter is the number of
    objects the cache holds, and neither passes the limit. *)
Theorem cache_counter `{PathToRegexp} (calls : list Call) :
  let st := run calls initial in
  cacheCount st = Z.of_nat (entries st) ∧
  (0 ≤ cacheCount st ≤ cacheLimit)%Z ∧
  (Z.of_nat (entries st) ≤ 10000)%Z.
Proof.
  intros st. pose proof (run_entries calls) as Hentries.
  pose proof (run_count calls) as Hcount. fold st in Hentries, Hcount.
  split; [done|]. split; [done|]. rewrite <- Hentries. unfold cacheLimit in Hcount. lia.
Qed.

(** A call of [compilePath] leaves what is cached for every other pair of
    pattern and options as it is; in particular the same pattern under
    other options is another entry. *)
Theorem compilePath_frame `{PathToRegexp} (path : string) (options : CompileOptions)
    (st : CacheState) (p : string) (o : CompileOptions) :
  (p, o) ≠ (path, options) →
  cached (compilePath path options st).2 p o = cached st p o.
Proof.
  intros Hne. compilePath_cases path options st; simpl.
  - done.
  - by rewrite Hcached.
  - destruct (decide (cacheCount st < cacheLimit)%Z); destruct Hst' as [_ ->]; [|done].
    rewrite decide_False; [done|]. intros [-> ->]. done.
Qed.

(** ** More on [matchPath] *)

(** When no candidate matches the pathname, none being an inherited name,
    [matchPath] returns [null]; so it does for an empty array and for a
    missing [path]. *)
Theorem matchPath_no_match `{PathToRegexp} (calls : list Call) (pathname : string)
    (options : Options.t) :
  Forall (λ q, candidate pathname options q = Return None)
    (concat_path (Options.path options)) →
  (matchPath pathname options (run calls initial)).1 = Return None.
Proof.
  intros Hnone. rewrite matchPath_result by apply run_cache_ok, cache_ok_initial.
  by apply accumulated_no_match.
Qed.

Lemma iterate_reducer_lookups `{PathToRegexp} pathname exact strict sensitive
    (paths : list JsPath) index matched st :
  let st' :=
    (iterate (reducer pathname exact strict sensitive) index paths matched st).2 in
  lookups (trace st) ≤ lookups (trace st') ∧
  lookups (trace st')
  ≤ lookups (trace st) + length (filter (λ p, passes_guard p) paths).
Proof.
  revert index matched st.
  induction paths as [|p paths IH]; intros index matched st; cbn [iterate].
  { simpl. lia. }
  destruct (passes_guard p) eqn:Hp.
  - rewrite filter_cons_True by by rewrite Hp.
    apply passes_guard_string in Hp as [s ->].
    destruct matched as [m|].
    + rewrite reducer_kept. specialize (IH (S index) (Some m) st).
      simpl in IH |- *. lia.
    + rewrite reducer_string.
      pose proof (compilePath_lookups s
        {| end_ := exact; strict := strict; sensitive := sensitive |} st) as Hlook.
      destruct (compilePath s _ st) as [[c|n] st1]; simpl in Hlook.
      * specialize (IH (S index) (attempt pathname exact s (regexp c) (keys c)) st1).
        simpl in IH |- *. lia.
      * simpl. lia.
  - rewrite filter_cons_False by (rewrite Hp; simpl; tauto).
    rewrite reducer_stopped by done. apply IH.
Qed.

(** One call of [matchPath] looks up at most one matcher per string
    candidate, and none when [path] is missing, [null] or an empty array. *)
Theorem matchPath_lookups `{PathToRegexp} (pathname : string) (options : Options.t)
    (st : CacheState) :
  let paths := concat_path (Options.path options) in
  let st' := (matchPath pathname options st).2 in
  lookups (trace st) ≤ lookups (trace st') ∧
  lookups (trace st') ≤ lookups (trace st) + length (filter (λ p, passes_guard p) paths) ∧
  resolutions (trace st') = S (resolutions (trace st)).
Proof.
  intros paths st'. split; [|split].
  - apply (iterate_reducer_lookups pathname _ _ _ paths 0 None
             (log (EvMatchPath pathname paths) st)).
  - apply (iterate_reducer_lookups pathname _ _ _ paths 0 None
             (log (EvMatchPath pathname paths) st)).
  - apply matchPath_resolutions.
Qed.


(** A result of [matchPath] is the result for its own [path] alone: that
    path is one of the candidates, and matching the pathname against it
    alone, with the same flags, gives the same result in any state of the
    cache. *)
Theorem matchPath_result_candidate `{PathToRegexp} (calls calls' : list Call)
    (pathname : string) (options : Options.t) (r : MatchResult) :
  (matchPath pathname options (run calls initial)).1 = Return (Some r) →
  PStr (path r) ∈ concat_path (Options.path options) ∧
  (matchPath pathname
     {| Options.path := PathOne (PStr (path r));
        Options.exact := Options.exact options;
        Options.strict := Options.strict options;
        Options.sensitive := Options.sensitive options |}
     (run calls' initial)).1 = Return (Some r).
Proof.
  rewrite !matchPath_result by apply run_cache_ok, cache_ok_initial.
  intros [?|(s & Hs & Hr)]%accumulated_some; [done|].
  assert (path r = s) as ->.
  { apply candidate_some in Hr as (s' & [= <-] & _ & Hr).
    by apply attempt_some in Hr as (u & values & _ & _ & ->). }
  split; [done|]. simpl. unfold accumulate.
  assert (negb (truthy (PStr s)) && not_empty_string (PStr s) = false) as ->.
  { simpl. by destruct (String.eqb s ""). }
  change (candidate pathname
            {| Options.path := PathOne (PStr s);
               Options.exact := Options.exact options;
               Options.strict := Options.strict options;
               Options.sensitive := Options.sensitive options |} (PStr s))
    with (candidate pathname options (PStr s)).
  by rewrite Hr.
Qed.
(** ** More on the Router *)

Lemma step_unlisten (this : Router.t) (e : Router.Lifecycle) :
  Router.unlisten (Router.step this e) = Router.unlisten this.
Proof.
  destruct this as [loc [] [p|] [] []], e as [l| |]; reflexivity.
Qed.

Lemma run_unlisten (props : Router.Props) (events : list Router.Lifecycle) :
  Router.unlisten (foldl Router.step (Router.constructor props) events)
  = negb (Router.staticContext props).
Proof.
  induction events as [|e events IH] using rev_ind; [done|].
  rewrite foldl_app. simpl. by rewrite step_unlisten.
Qed.

(** A mounted Router that listens gets every location published. *)
Lemma publish_after_mount (this : Router.t) (published : list Location) :
  Router._isMounted this = true → Router.subscribed this = true →
  foldl Router.step this (Router.Publish <$> published)
  = foldl Router.listener this published.
Proof.
  intros Hm Hs.
  induction published as [|location published IH] using rev_ind; [done|].
  rewrite fmap_app, !foldl_app. simpl. rewrite IH.
  assert (Router.subscribed (foldl Router.listener this published) = true) as ->; [|done].
  clear IH. induction published as [|l published IH] using rev_ind; [done|].
  rewrite foldl_app. simpl.
  destruct (listeners_after_mount this published Hm) as (Hm' & _ & _).
  by rewrite listener_mounted.
Qed.

(** A Router that listens loses no location: after the constructor, the
    locations published before the mount, the mount and the locations
    published after it, the current location is the last one published, or
    the initial one when none was. *)
Theorem Router_last_location (initial_location : Location)
    (before after : list Location) :
  let props :=
    {| Router.history_location := initial_location;
       Router.staticContext := false |} in
  let this :=
    foldl Router.step (Router.constructor props)
      ((Router.Publish <$> before) ++ Router.DidMount :: (Router.Publish <$> after)) in
  Router._isMounted this = true ∧
  Router.location this = default initial_location (last (before ++ after)) ∧
  RouterContext.location (Router.render this)
  = default initial_location (last (before ++ after)).
Proof.
  intros props this.
  assert (Router._isMounted this = true ∧
          Router.location this = default initial_location (last (before ++ after)))
    as [Hm Hloc]; [|done].
  subst this. rewrite foldl_app, publish_before_mount. simpl.
  destruct (listeners_before_mount props before) as (Hloc & Hm & Hp & _ & Hs).
  set (this := foldl Router.listener (Router.constructor props) before) in *.
  assert (Router._isMounted (Router.componentDidMount this) = true) as Hm'.
  { unfold Router.componentDidMount. simpl. by destruct (Router._pendingLocation this). }
  assert (Router.subscribed (Router.componentDidMount this) = true) as Hs'.
  { unfold Router.componentDidMount. simpl. by destruct (Router._pendingLocation this). }
  assert (Router.location (Router.componentDidMount this)
          = default initial_location (last before)) as Hloc'.
  { unfold Router.componentDidMount. simpl. rewrite Hp. by destruct (last before). }
  rewrite publish_after_mount by done.
  destruct (listeners_after_mount _ after Hm') as (-> & _ & ->).
  split; [done|]. rewrite Hloc', last_app. by destruct (last after).
Qed.

(** After [componentWillUnmount], in whatever state the Router was, the
    pending slot is empty, the locations published are ignored, and a
    second [componentWillUnmount] changes nothing. *)
Theorem Router_teardown (props : Router.Props) (events : list Router.Lifecycle)
    (published : list Location) :
  let this :=
    Router.step (foldl Router.step (Router.constructor props) events)
      Router.WillUnmount in
  Router._pendingLocation this = None ∧
  Router.subscribed this = false ∧
  foldl Router.step this (Router.Publish <$> published) = this ∧
  Router.componentWillUnmount this = this.
Proof.
  intros this.
  destruct (Router_history props events) as (Hsub & Hpending & _).
  set (before := foldl Router.step (Router.constructor props) events) in *.
  assert (Router._pendingLocation this = None ∧ Router.subscribed this = false ∧
          Router.componentWillUnmount this = this) as (Hp & Hs & Hidem).
  { subst this. simpl. unfold Router.componentWillUnmount.
    destruct (Router.unlisten before) eqn:Hun; simpl; [done|].
    rewrite Hun. split; [|split; [|done]].
    - destruct (Router._pendingLocation before) as [l|] eqn:Hl; [|done].
      by specialize (Hpending (mk_is_Some _ _ eq_refl)).
    - destruct (Router.subscribed before); [|done]. by specialize (Hsub eq_refl). }
  split; [done|]. split; [done|]. split; [|done].
  induction published as [|l published IH] using rev_ind; [done|].
  rewrite fmap_app, foldl_app, IH. simpl. by rewrite Hs.
Qed.

(** A static Router (one given [staticContext]) never listens: whatever
    is published and whatever React does, its location is the initial one
    and its pending slot is empty. *)
Theorem Router_static (initial_location : Location)
    (events : list Router.Lifecycle) :
  let this :=
    foldl Router.step
      (Router.constructor
         {| Router.history_location := initial_location;
            Router.staticContext := true |}) events in
  Router.location this = initial_location ∧
  Router._pendingLocation this = None ∧
  Router.render this
  = {| RouterContext.location := initial_location;
       RouterContext.match_ :=
         Some (Router.computeRootMatch (pathname initial_location)) |}.
Proof.
  intros this.
  assert (Router.location this = initial_location ∧
          Router._pendingLocation this = None ∧
          Router.unlisten this = false ∧ Router.subscribed this = false)
    as (Hloc & Hp & _ & _).
  { subst this. induction events as [|e events IH] using rev_ind; [done|].
    rewrite foldl_app. simpl. destruct IH as (Hloc & Hp & Hun & Hs).
    destruct e as [l| |]; simpl.
    - by rewrite Hs.
    - unfold Router.componentDidMount. simpl. by rewrite Hp.
    - unfold Router.componentWillUnmount. by rewrite Hun. }
  split; [done|]. split; [done|]. unfold Router.render. by rewrite Hloc.
Qed.

(** ** More on Route and Switch *)

(** Outside a Router, [Route.render] and [Switch.render] raise and leave
    the module state as it is. *)
Theorem render_outside_Router `{PathToRegexp} (DEV : bool) (props : Props.t)
    (location : option Location) (children : list Switch.Child)
    (st : CacheState) :
  Route.render DEV props None st
  = (Throw "You should not use <Route> outside a <Router>", st) ∧
  Switch.render location children None st
  = (Throw "You should not use <Switch> outside a <Router>", st).
Proof. done. Qed.

Lemma resolve_any_cache `{PathToRegexp} (props : Props.t)
    (context : RouterContext.t) (st : CacheState) :
  cache_ok st →
  (Route.resolve props context st).1 = (Route.resolve props context initial).1.
Proof.
  intros Hok. unfold Route.resolve.
  destruct (Props.computedMatch props) as [m|]; [done|].
  destruct (truthy_prop _); [|done].
  pose proof (matchPath_result
    (pathname (default (RouterContext.location context) (Props.location props)))
    (Props.options props) st Hok) as Hst.
  pose proof (matchPath_result
    (pathname (default (RouterContext.location context) (Props.location props)))
    (Props.options props) initial cache_ok_initial) as Hinit.
  destruct (matchPath _ _ st) as [[message|m] st1],
    (matchPath _ _ initial) as [[message'|m'] st1'];
    simpl in Hst, Hinit; rewrite <- Hinit in Hst; by simplify_eq.
Qed.

(** What [Route.render] returns or raises does not depend on what the
    cache holds. *)
Lemma Route_render_any_cache `{PathToRegexp} (DEV : bool) (props : Props.t)
    (context : option RouterContext.t) (st : CacheState) :
  cache_ok st →
  (Route.render DEV props context st).1
  = (Route.render DEV props context initial).1.
Proof.
  intros Hok. destruct context as [context|]; [|done].
  unfold Route.render.
  pose proof (resolve_any_cache props context st Hok) as Hres.
  destruct (Route.resolve props context st) as [[message|[loc m]] st1],
    (Route.resolve props context initial) as [[message'|[loc' m']] st1'];
    simpl in Hres; simplify_eq; [done|].
  by destruct (Route.select DEV props _) as [content strategy].
Qed.

Lemma visit_kept `{PathToRegexp} location context element m child index st :
  Switch.visit location context (element, Some m) child index st
  = (Return (element, Some m), st).
Proof. done. Qed.

Lemma visit_not_element `{PathToRegexp} location context element index st :
  Switch.visit location context (element, None) Switch.NotElement index st
  = (Return (element, None), st).
Proof. done. Qed.

Lemma visit_any_cache `{PathToRegexp} (location : Location)
    (context : RouterContext.t) (children : list Switch.Child) (index : nat)
    (element : option (string * Props.t)) (m : option MatchResult)
    (st st' : CacheState) :
  cache_ok st → cache_ok st' →
  (iterate (Switch.visit location context) index children (element, m) st).1
  = (iterate (Switch.visit location context) index children (element, m) st').1.
Proof.
  revert index element m st st'.
  induction children as [|child children IH]; intros index element m st st' Hok Hok';
    cbn [iterate]; [done|].
  destruct m as [m|]; [rewrite !visit_kept; by apply IH|].
  destruct child as [|type props]; [rewrite !visit_not_element; by apply IH|].
  rewrite !visit_element.
  destruct (match_child_result location context type props st Hok) as (Hm & Hok1 & _).
  destruct (match_child_result location context type props st' Hok')
    as (Hm' & Hok1' & _).
  rewrite <- Hm' in Hm.
  destruct (Switch.match_child location context props st) as [[message|m1] st1],
    (Switch.match_child location context props st') as [[message'|m1'] st1'];
    simpl in Hm, Hok1, Hok1'; simplify_eq; [done|].
  by apply IH.
Qed.

(** In every state the module can reach, [Route.render] and
    [Switch.render] return, or raise, what they do with an empty cache: the
    cache changes no rendering decision. *)
Theorem render_any_cache `{PathToRegexp} (calls : list Call) (DEV : bool)
    (props : Props.t) (location : option Location)
    (children : list Switch.Child) (context : option RouterContext.t) :
  let st := run calls initial in
  (Route.render DEV props context st).1
  = (Route.render DEV props context initial).1 ∧
  (Switch.render location children context st).1
  = (Switch.render location children context initial).1.
Proof.
  intros st.
  assert (cache_ok st) as Hok by apply run_cache_ok, cache_ok_initial.
  split; [by apply Route_render_any_cache|].
  destruct context as [context|]; [|done]. unfold Switch.render.
  pose proof (visit_any_cache (default (RouterContext.location context) location)
                context children 0 None None st initial Hok cache_ok_initial) as Hvisit.
  destruct (iterate _ 0 children (None, None) st) as [[message|[element m]] st1],
    (iterate _ 0 children (None, None) initial) as [[message'|[element' m']] st1'];
    simpl in Hvisit; by simplify_eq.
Qed.

(** The development build decides as the production build: the value
    provided, the module state and the strategy invoked are the same, and
    so is the content, but for a children function that returns a falsy
    value, which the development build turns into [null]; and one build
    raises when the other does. *)
Theorem Route_render_dev `{PathToRegexp} (props : Props.t)
    (context : option RouterContext.t) (st : CacheState) :
  match Route.render true props context st, Route.render false props context st with
  | (Return dev, st_dev), (Return prod, st_prod) =>
      st_dev = st_prod ∧
      Route.value dev = Route.value prod ∧
      Route.invoked dev = Route.invoked prod ∧
      Route.content dev
      = (if truthy_rendered (Route.content prod) then Route.content prod
         else
           match Route.invoked prod with
           | Some ChildrenFunction => Null
           | _ => Route.content prod
           end)
  | (Throw dev, st_dev), (Throw prod, st_prod) => dev = prod ∧ st_dev = st_prod
  | _, _ => False
  end.
Proof.
  destruct context as [context|]; [|done].
  unfold Route.render.
  destruct (Route.resolve props context st) as [[message|[loc m]] st1]; [done|].
  rewrite !select_supplied. simpl.
  split; [done|]. split; [done|]. split; [done|].
  destruct m as [m|]; simpl.
  - unfold priority. rewrite !filter_cons, filter_nil. unfold supplied, rendering.
    destruct (adjusted_children props) as [f|v]; simpl.
    + unfold Route.evalChildrenDev. by destruct (truthy_rendered (f _)).
    + destruct (truthy_rendered v) eqn:Hv; simpl; [by rewrite Hv|].
      destruct (Props.component props) as [c|]; simpl; [done|].
      destruct (Props.render props) as [r|]; simpl; [|done].
      by destruct (truthy_rendered (r _)).
  - unfold supplied, rendering.
    destruct (adjusted_children props) as [f|v]; simpl; [|done].
    unfold Route.evalChildrenDev. by destruct (truthy_rendered (f _)).
Qed.

(** Directly under a Router, a Route without a path of its own (and
    without [computedMatch]) always matches: it provides the root match of
    the Router's location, whatever its own [location] property, touches no
    module state, and invokes the first strategy it declares. *)
Theorem Route_under_Router `{PathToRegexp} (DEV : bool) (this : Router.t)
    (props : Props.t) (st : CacheState) :
  truthy_prop (Options.path (Props.options props)) = false →
  Props.computedMatch props = None →
  ∃ output,
    Route.render DEV props (Some (Router.render this)) st = (Return output, st) ∧
    RouterContext.match_ (Route.value output)
    = Some {| path := "/"; url := "/"; params := ∅;
              isExact := String.eqb (pathname (Router.location this)) "/" |} ∧
    Route.invoked output = head (filter (λ s, supplied props s) priority).
Proof.
  intros Hpath Hcomputed. unfold Route.render, Route.resolve.
  rewrite Hcomputed, Hpath, select_supplied. simpl. by eexists.
Qed.

(** In a Switch directly under a Router, an element without [path] and
    [from] is a default: when no child before it matches, it is the child
    selected, with the root match of the Router as [computedMatch]. *)
Theorem Switch_default_under_Router `{PathToRegexp} (calls : list Call)
    (this : Router.t) (location : option Location)
    (pre : list Switch.Child) (type : string) (props : Props.t)
    (post : list Switch.Child) :
  let context := Router.render this in
  let loc := default (Router.location this) location in
  has_pattern (Switch.ChildElement type props) = false →
  Forall (λ c, own_match loc context c = Return None) pre →
  (Switch.render location (pre ++ Switch.ChildElement type props :: post)
     (Some context) (run calls initial)).1
  = Return
      (Some
         (Switch.cloneElement (type, props) loc
            (Router.computeRootMatch (pathname (Router.location this))))).
Proof.
  intros context loc Hpattern Hpre.
  assert (cache_ok (run calls initial)) as Hok by apply run_cache_ok, cache_ok_initial.
  destruct (visit_no_match loc context pre 0 None _ Hok Hpre)
    as (element & st1 & Hvisit & _ & _).
  unfold Switch.render.
  change (default (RouterContext.location context) location) with loc.
  rewrite iterate_app, Hvisit. cbn [iterate]. rewrite visit_element.
  unfold Switch.match_child. simpl in Hpattern. rewrite Hpattern.
  cbn [RouterContext.match_ context Router.render]. by rewrite visit_matched.
Qed.

(** What [Switch] computes for an element that has a [path], or has
    neither [path] nor [from], and no [location] and [computedMatch] of its
    own, is what the element computes as a Route by itself in the same
    context: the match, or the exception, and the module state are the
    same. *)
Theorem Switch_match_is_Route_match `{PathToRegexp} (context : RouterContext.t)
    (props : Props.t) (st : CacheState) :
  truthy_prop (Options.path (Props.options props)) = true
  ∨ truthy_prop (Props.from props) = false →
  Props.location props = None →
  Props.computedMatch props = None →
  Route.resolve props context st
  = match Switch.match_child (RouterContext.location context) context props st with
    | (Return m, st') => (Return (RouterContext.location context, m), st')
    | (Throw message, st') => (Throw message, st')
    end.
Proof.
  intros Hpath Hloc Hcomputed.
  unfold Route.resolve, Switch.match_child, js_or. rewrite Hloc, Hcomputed. simpl.
  destruct (truthy_prop (Options.path (Props.options props))) eqn:Htruthy.
  - rewrite Htruthy.
    assert (Switch.with_path props (Options.path (Props.options props))
            = Props.options props) as ->.
    { unfold Switch.with_path. by destruct (Props.options props). }
    done.
  - destruct Hpath as [?| ->]; done.
Qed.

(** When the development build warns that [component] (or [render]) will
    be ignored, [Route.render] does not invoke that strategy, in either
    build and with or without a match. *)
Theorem Route_warnings_sound `{PathToRegexp} (DEV : bool) (props : Props.t)
    (context : RouterContext.t) (st : CacheState) :
  let invoked :=
    match (Route.render DEV props (Some context) st).1 with
    | Return output => Route.invoked output
    | Throw _ => None
    end in
  (RouteDev.component_and_children ∈ RouteDev.componentDidMount props →
   invoked ≠ Some NamedComponent) ∧
  (RouteDev.render_and_children ∈ RouteDev.componentDidMount props
   ∨ RouteDev.component_and_render ∈ RouteDev.componentDidMount props →
   invoked ≠ Some RenderFunction).
Proof.
  intros invoked.
  assert (invoked
          = match (Route.resolve props context st).1 with
            | Return (_, Some _) => head (filter (λ s, supplied props s) priority)
            | Return (_, None) =>
                if supplied props ChildrenFunction then Some ChildrenFunction else None
            | Throw _ => None
            end) as ->.
  { unfold invoked, Route.render.
    destruct (Route.resolve props context st) as [[message|[loc m]] st1]; [done|].
    rewrite select_supplied. by destruct m. }
  unfold RouteDev.componentDidMount, RouteDev.warning, RouteDev.isEmptyChildren,
    RouteDev.count, RouteDev.truthy_children.
  unfold priority. rewrite !filter_cons, filter_nil.
  unfold supplied, adjusted_children, Route.isEmptyChildren.
  destruct ((Route.resolve props context st).1) as [message|[loc [m|]]];
    destruct (Props.children props) as [f|[|n|[|n ns]]],
      (Props.component props) as [c|], (Props.render props) as [r|];
    simpl; try (destruct n as [s|ty p]; simpl; [destruct (String.eqb s "")|]; simpl);
    (split; [intros Hin|intros [Hin|Hin]]); try done;
    repeat (apply elem_of_cons in Hin as [Hin|Hin]; [discriminate Hin|]);
    try by apply elem_of_nil in Hin.
Qed.

(** ** Concrete calls for the properties above *)

Section MoreWitnesses.
#[local] Existing Instance SegmentLib.pathToRegexp.

Lemma compilePath_frame_witness :
  cached
    (compilePath "/a" {| end_ := true; strict := false; sensitive := false |} initial).2
    "/a" {| end_ := false; strict := false; sensitive := false |}
  = cached initial "/a" {| end_ := false; strict := false; sensitive := false |}.
Proof.
  apply (compilePath_frame "/a" {| end_ := true; strict := false; sensitive := false |}
           initial "/a" {| end_ := false; strict := false; sensitive := false |}).
  intros Heq. discriminate Heq.
Defined.

Lemma matchPath_first_match_witness :
  let options := options_with (PathArray [PStr "/a"; PStr "/b"; PStr "/:any"]) None in
  (matchPath "/b" options initial).1
  = Return (Some {| path := "/b"; url := "/b"; isExact := true; params := ∅ |}) ∧
  lookups (trace (matchPath "/b" options initial).2) = 2.
Proof.
  intros options.
  apply (matchPath_first_match [] "/b" options [PStr "/a"] (PStr "/b") [PStr "/:any"]).
  - reflexivity.
  - repeat constructor.
  - repeat constructor.
  - vm_compute. reflexivity.
Defined.

Lemma matchPath_no_match_witness :
  (matchPath "/x/42" (options_with (PathArray [PStr "/a"; PStr "/b"]) None) initial).1
  = Return None.
Proof.
  apply (matchPath_no_match [] "/x/42"
           (options_with (PathArray [PStr "/a"; PStr "/b"]) None)).
  repeat constructor.
Defined.


Lemma matchPath_result_candidate_witness :
  let r := {| path := "/b"; url := "/b"; isExact := true; params := ∅ |} in
  PStr (path r) ∈ [PStr "/a"; PStr "/b"] ∧
  (matchPath "/b"
     {| Options.path := PathOne (PStr (path r)); Options.exact := None;
        Options.strict := None; Options.sensitive := None |}
     (run (interpolated 3) initial)).1 = Return (Some r).
Proof.
  intros r.
  apply (matchPath_result_candidate [] (interpolated 3) "/b"
           (options_with (PathArray [PStr "/a"; PStr "/b"]) None) r).
  vm_compute. reflexivity.
Defined.

Lemma Route_under_Router_witness :
  ∃ output,
    Route.render false (route_props (PathOne PUndefined) None)
      (Some (Router.render
               (Router.constructor
                  {| Router.history_location := {| pathname := "/x" |};
                     Router.staticContext := false |}))) initial
    = (Return output, initial) ∧
    RouterContext.match_ (Route.value output)
    = Some {| path := "/"; url := "/"; params := ∅; isExact := false |} ∧
    Route.invoked output = None.
Proof.
  apply (Route_under_Router false
           (Router.constructor
              {| Router.history_location := {| pathname := "/x" |};
                 Router.staticContext := false |})
           (route_props (PathOne PUndefined) None) initial); reflexivity.
Defined.

Lemma Switch_default_under_Router_witness :
  (Switch.render None three_routes
     (Some (Router.render
              (Router.constructor
                 {| Router.history_location := {| pathname := "/y" |};
                    Router.staticContext := false |}))) initial).1
  = Return
      (Some
         (Switch.cloneElement ("Route", route_props (PathOne PUndefined) None)
            {| pathname := "/y" |} (Router.computeRootMatch "/y"))).
Proof.
  apply (Switch_default_under_Router []
           (Router.constructor
              {| Router.history_location := {| pathname := "/y" |};
                 Router.staticContext := false |})
           None
           [Switch.ChildElement "Route" (route_props (PathOne (PStr "/x")) (Some true));
            Switch.ChildElement "Route" (route_props (PathOne (PStr "/x/:id")) None)]
           "Route" (route_props (PathOne PUndefined) None) []).
  - reflexivity.
  - repeat constructor.
Defined.

Lemma Switch_no_match_witness :
  (Switch.render None
     [Switch.NotElement;
      Switch.ChildElement "Route" (route_props (PathOne (PStr "/x")) (Some true))]
     (Some (context_at "/y")) initial).1
  = Return None.
Proof.
  apply (Switch_no_match [] None (context_at "/y")
           [Switch.NotElement;
            Switch.ChildElement "Route" (route_props (PathOne (PStr "/x")) (Some true))]).
  repeat constructor.
Defined.

Lemma Switch_match_is_Route_match_witness :
  let props := route_props (PathOne (PStr "/x/:id")) None in
  let context := context_at "/x/42" in
  Route.resolve props context initial
  = match Switch.match_child (RouterContext.location context) context props initial with
    | (Return m, st') => (Return (RouterContext.location context, m), st')
    | (Throw message, st') => (Throw message, st')
    end.
Proof.
  intros props context.
  apply (Switch_match_is_Route_match context props initial).
  - left. reflexivity.
  - reflexivity.
  - reflexivity.
Defined.

Lemma Route_warnings_sound_witness :
  let props :=
    {| Props.options := options_with (PathOne (PStr "/x")) None;
       Props.from := PathOne PUndefined;
       Props.location := None;
       Props.computedMatch := None;
       Props.children := ChValue (Node (Text "page"));
       Props.component := Some "Page";
       Props.render := None |} in
  match (Route.render true props (Some (context_at "/x")) initial).1 with
  | Return output => Route.invoked output
  | Throw _ => None
  end ≠ Some NamedComponent.
Proof.
  intros props.
  destruct (Route_warnings_sound true props (context_at "/x") initial) as [Hcomponent _].
  apply Hcomponent. vm_compute. left.
Defined.
End MoreWitnesses.
